(** * micro-batcher: the batching engine of [batch.go]

    A shallow embedding of package [microbatcher] and the properties of its
    queue, its two flush triggers, its shutdown drain and its result futures.

    Conventions of the embedding.
    - Go's [int] and [time.Duration] are [Z]; no arithmetic is done on them in
      [batch.go], so no wrap-around arises.
    - A slice is a [list]; a slice expression whose bounds are out of range
      panics.
    - A [chan B] of capacity 1 is a reference into a store of slots
      ([None]: empty, [Some v]: holding [v]).
    - Every method is a computation over the [World] (the [Batcher] object,
      the channel store, the goroutines started by [go] and not yet run) that
      finishes, panics or blocks.
    - The goroutines are interleaved by labelled step relations of two
      grains. [step] takes one method call or one iteration of a [for] loop
      as its unit: it describes the schedules in which nothing comes between
      an unlocked read and the critical section that it guards, and serves
      for what one call or iteration does and for what holds along such
      schedules. [fstep] takes the unit that the mutex gives: the unlocked
      reads of [AddJob], of the [switch] of [Start] and the receive of
      [startTicker] are steps of their own, and other goroutines step between
      them and the locked part. Every step of [step] is a sequence of steps
      of [fstep] ([step_refines]); what depends on all interleavings is
      stated over [fstep]. *)

From Stdlib Require Import ZArith String Ascii Lia.
From stdpp Require Import base list.

Open Scope Z_scope.

(** ** Outcomes of a computation *)

Inductive outcome (S T : Type) : Type :=
| Done (x : T) (s : S)
| Panic (msg : string)
| Blocked.
Arguments Done {S T} x s.
Arguments Panic {S T} msg.
Arguments Blocked {S T}.

Definition ret {S T} (x : T) : S -> outcome S T := fun s => Done x s.

Definition bind {S T U} (c : S -> outcome S T) (k : T -> S -> outcome S U)
  : S -> outcome S U :=
  fun s =>
    match c s with
    | Done x s' => k x s'
    | Panic msg => Panic msg
    | Blocked => Blocked
    end.

Declare Scope go_scope.
Delimit Scope go_scope with go.
Notation "x <- c ;; k" := (bind c (fun x => k))
  (at level 100, c at next level, k at level 200, right associativity) : go_scope.
Notation "c ;; k" := (bind c (fun _ => k))
  (at level 100, k at level 200, right associativity) : go_scope.

(** ** [time.Ticker] *)

(** Modelled from the spec: the periodic timer, which is [time.Ticker] of
    Go's standard library and not among the sources. It signals once per
    period and its countdown can be restarted. Time is logical: [countdown]
    is the time left until the next tick, and [0] means that a tick is
    waiting on the channel [C]. That a non-positive interval panics is the
    library's documented behaviour. *)
Record Ticker := mkTicker { period : Z; countdown : Z }.

(** [time.NewTicker(d)] panics unless [d] is positive. *)
Definition NewTicker (d : Z) : option Ticker :=
  if d <=? 0 then None else Some (mkTicker d d).

(** [t.Reset(d)]: the next tick arrives after the new period elapses; panics
    unless [d] is positive. *)
Definition Ticker_Reset (d : Z) (t : Ticker) : option Ticker :=
  if d <=? 0 then None else Some (mkTicker d d).

Definition tick_ready (t : Ticker) : bool := countdown t =? 0.

(** A receive on [t.C]: the tick is taken and the next one is a period away. *)
Definition Ticker_recv (t : Ticker) : option Ticker :=
  if tick_ready t then Some (mkTicker (period t) (period t)) else None.

(** [dt] units of time pass. *)
Definition Ticker_elapse (dt : Z) (t : Ticker) : Ticker :=
  mkTicker (period t) (countdown t - dt).

Definition error := string.

Definition SubmissionRejected : error :=
  "failed to add job; batcher is shutting down"%string.

(** A channel is a position in the store of slots. *)
Abbreviation chan := nat.

Section Microbatcher.

Context {A B : Type}.

(** ** Data model *)

Record Job := mkJob { Id : Z; Data : A }.

Record JobResult := mkJobResult { JobId : Z; data : option B; ch : chan }.

Record batchJob := mkBatchJob { job : Job; retCh : chan }.

Record Batcher := mkBatcher {
  processor : A -> B;
  batchSize : Z;
  frequency : Z;
  shuttingDown : bool;
  jobs : list batchJob;
  ticker : Ticker;
  mu : bool
}.

(** The control state of the goroutine that runs [Start]. A panic of that
    goroutine is not recovered and ends the program. *)
Inductive loop_state := Looping | Returned | Panicked (msg : string).

(** The world: the object behind [b], the store of channels, the
    invocations of [processJob] that [go] has started and that have not run
    yet, the record of all [go] statements so far, in order, and the state of
    the loop of [Start]. *)
Record World := mkWorld {
  batcher : Batcher;
  chans : list (option B);
  goroutines : list batchJob;
  dispatch_log : list batchJob;
  loop : loop_state
}.

Definition M (T : Type) : Type := World -> outcome World T.

Definition set_shuttingDown (v : bool) (b : Batcher) : Batcher :=
  mkBatcher (processor b) (batchSize b) (frequency b) v (jobs b) (ticker b) (mu b).
Definition set_jobs (js : list batchJob) (b : Batcher) : Batcher :=
  mkBatcher (processor b) (batchSize b) (frequency b) (shuttingDown b) js (ticker b) (mu b).
Definition set_ticker (t : Ticker) (b : Batcher) : Batcher :=
  mkBatcher (processor b) (batchSize b) (frequency b) (shuttingDown b) (jobs b) t (mu b).
Definition set_mu (v : bool) (b : Batcher) : Batcher :=
  mkBatcher (processor b) (batchSize b) (frequency b) (shuttingDown b) (jobs b) (ticker b) v.

Definition with_batcher (f : Batcher -> Batcher) (w : World) : World :=
  mkWorld (f (batcher w)) (chans w) (goroutines w) (dispatch_log w) (loop w).
Definition with_chans (cs : list (option B)) (w : World) : World :=
  mkWorld (batcher w) cs (goroutines w) (dispatch_log w) (loop w).
Definition with_goroutines (gs : list batchJob) (w : World) : World :=
  mkWorld (batcher w) (chans w) gs (dispatch_log w) (loop w).
Definition with_loop (l : loop_state) (w : World) : World :=
  mkWorld (batcher w) (chans w) (goroutines w) (dispatch_log w) l.

(** ** Primitive effects *)

Definition read {T} (f : Batcher -> T) : M T := fun w => Done (f (batcher w)) w.
Definition write (f : Batcher -> Batcher) : M unit :=
  fun w => Done tt (with_batcher f w).

(** [b.mu.Lock()] blocks while the mutex is held. *)
Definition Lock : M unit :=
  fun w => if mu (batcher w) then Blocked else Done tt (with_batcher (set_mu true) w).

(** [b.mu.Unlock()]; unlocking a mutex that is not held is a fatal error. *)
Definition Unlock : M unit :=
  fun w =>
    if mu (batcher w) then Done tt (with_batcher (set_mu false) w)
    else Panic "sync: unlock of unlocked mutex".

(** [make(chan B, 1)]: a new, empty slot. *)
Definition make_chan : M chan :=
  fun w => Done (length (chans w)) (with_chans (chans w ++ [None]) w).

(** [c <- v] on a channel of capacity 1: blocks while the slot is full. *)
Definition send (c : chan) (v : B) : M unit :=
  fun w =>
    match chans w !! c with
    | Some None => Done tt (with_chans (<[c := Some v]> (chans w)) w)
    | _ => Blocked
    end.

(** [<-c]: blocks while the slot is empty. *)
Definition recv (c : chan) : M B :=
  fun w =>
    match chans w !! c with
    | Some (Some v) => Done v (with_chans (<[c := None]> (chans w)) w)
    | _ => Blocked
    end.

(** [go b.processJob(job)]: the invocation is started, to run later, and
    recorded. *)
Definition go_processJob (bj : batchJob) : M unit :=
  fun w =>
    Done tt (mkWorld (batcher w) (chans w) (goroutines w ++ [bj])
               (dispatch_log w ++ [bj]) (loop w)).

(** [s[lo:hi]] and [s[lo:]]. The capacity of a slice is not modelled: the
    upper bound is the length. [Start] slices at [b.batchSize] under the
    guard [len(b.jobs) >= b.batchSize], where both bounds admit the same
    indices. Where the guard no longer holds at the slice expressions, the
    second of them, [b.jobs[b.batchSize:]], has the length as its upper
    bound in Go as well, and nothing is done between the two: together they
    panic exactly when the batch size is negative or exceeds the length. *)
Definition slice (s : list batchJob) (lo hi : Z) : M (list batchJob) :=
  fun w =>
    if (0 <=? lo) && (lo <=? hi) && (hi <=? Z.of_nat (length s))
    then Done (drop (Z.to_nat lo) (take (Z.to_nat hi) s)) w
    else Panic "slice bounds out of range".

Definition slice_from (s : list batchJob) (lo : Z) : M (list batchJob) :=
  slice s lo (Z.of_nat (length s)).

Definition len (s : list batchJob) : Z := Z.of_nat (length s).

(** [<-b.ticker.C] and [b.ticker.Reset(d)]. *)
Definition recv_tick : M unit :=
  fun w =>
    match Ticker_recv (ticker (batcher w)) with
    | Some t => Done tt (with_batcher (set_ticker t) w)
    | None => Blocked
    end.

Definition Reset (d : Z) : M unit :=
  fun w =>
    match Ticker_Reset d (ticker (batcher w)) with
    | Some t => Done tt (with_batcher (set_ticker t) w)
    | None => Panic "non-positive interval for Ticker.Reset"
    end.

Local Open Scope go_scope.

(** ** The methods of [batch.go] *)

(** [JobResult.Get]; the receiver is updated in place, so it is returned. *)
Definition Get (jr : JobResult) : M (B * JobResult) :=
  match data jr with
  | Some v => ret (v, jr)
  | None =>
      val <- recv (ch jr) ;;
      ret (val, mkJobResult (JobId jr) (Some val) (ch jr))
  end.

(** [NewBatcher] checks nothing itself; it fails only where
    [time.NewTicker] panics. *)
Definition NewBatcher (processor : A -> B) (frequency batchSize : Z)
  : option Batcher :=
  match NewTicker frequency with
  | Some t => Some (mkBatcher processor batchSize frequency false [] t false)
  | None => None
  end.

Definition AddJob (job : Job) : M (option JobResult * option error) :=
  sd <- read shuttingDown ;;
  if sd : bool then ret (None, Some SubmissionRejected)
  else
    ch <- make_chan ;;
    let newJob := mkBatchJob job ch in
    Lock ;;
    js <- read jobs ;;
    write (set_jobs (js ++ [newJob])) ;;
    Unlock ;;
    ret (Some (mkJobResult (Id job) None ch), None).

Fixpoint processBatch (batch : list batchJob) : M unit :=
  match batch with
  | [] => ret tt
  | bj :: rest => go_processJob bj ;; processBatch rest
  end.

Definition processJob (bj : batchJob) : M unit :=
  p <- read processor ;;
  let res := p (Data (job bj)) in
  send (retCh bj) res.

Definition Shutdown : M unit := write (set_shuttingDown true).

(** One iteration of the [for] loop of [startTicker]. *)
Definition startTicker_iter : M unit :=
  recv_tick ;;
  Lock ;;
  js <- read jobs ;;
  processBatch js ;;
  write (set_jobs []) ;;
  Unlock.

(** What an iteration of the loop of [Start] ends with. *)
Inductive ctl := Next | Return.

(** One iteration of the [for] loop of [Start]: the [switch] takes its first
    true case; with none, the loop goes round. *)
Definition Start_iter : M ctl :=
  sd <- read shuttingDown ;;
  if sd : bool then
    Lock ;;
    js <- read jobs ;;
    (if 0 <? len js then processBatch js ;; write (set_jobs []) else ret tt) ;;
    Unlock ;;
    ret Return
  else
    js <- read jobs ;;
    n <- read batchSize ;;
    if n <=? len js then
      Lock ;;
      js <- read jobs ;;
      batchJobs <- slice js 0 n ;;
      rest <- slice_from js n ;;
      write (set_jobs rest) ;;
      processBatch batchJobs ;;
      d <- read frequency ;;
      Reset d ;;
      Unlock ;;
      ret Next
    else ret Next.

(** ** The running engine

    [Start] has been called: its loop and the loop of [startTicker] run next
    to the callers of [AddJob], [Shutdown] and [Get] and to the goroutines
    started by [processBatch]. Time passes up to the next tick, which the
    listener of [startTicker] takes as it arrives. A step of [step] is a
    whole call or a whole iteration: the schedules it describes are those in
    which no other goroutine runs between the unlocked reads of a method and
    its locked part. The schedules in which one does are those of [fstep]
    below. *)

Inductive action :=
| ActAddJob (job : Job) (r : option JobResult * option error)
| ActShutdown
| ActStart (c : ctl)
| ActStartPanic (msg : string)
| ActTicker
| ActProcessJob (bj : batchJob)
| ActGet (jr : JobResult) (v : B) (jr' : JobResult)
| ActElapse (dt : Z).

Definition alive (w : World) : bool :=
  match loop w with Panicked _ => false | _ => true end.

Definition after_Start (c : ctl) (w : World) : World :=
  match c with Return => with_loop Returned w | Next => w end.

Definition elapse (dt : Z) (w : World) : World :=
  with_batcher (fun b => set_ticker (Ticker_elapse dt (ticker b)) b) w.

Inductive step : World -> action -> World -> Prop :=
| step_AddJob w job r w' :
    alive w = true -> AddJob job w = Done r w' ->
    step w (ActAddJob job r) w'
| step_Shutdown w w' :
    alive w = true -> Shutdown w = Done tt w' ->
    step w ActShutdown w'
| step_Start w c w' :
    loop w = Looping -> Start_iter w = Done c w' ->
    step w (ActStart c) (after_Start c w')
| step_Start_panic w msg :
    loop w = Looping -> Start_iter w = Panic msg ->
    step w (ActStartPanic msg) (with_loop (Panicked msg) w)
| step_Ticker w w' :
    alive w = true -> startTicker_iter w = Done tt w' ->
    step w ActTicker w'
| step_processJob w gs1 bj gs2 w' :
    alive w = true -> goroutines w = gs1 ++ bj :: gs2 ->
    processJob bj (with_goroutines (gs1 ++ gs2) w) = Done tt w' ->
    step w (ActProcessJob bj) w'
| step_Get w jr v jr' w' :
    alive w = true -> Get jr w = Done (v, jr') w' ->
    step w (ActGet jr v jr') w'
| step_Elapse w dt :
    alive w = true -> 0 < dt <= countdown (ticker (batcher w)) ->
    step w (ActElapse dt) (elapse dt w).

Inductive exec : World -> list action -> World -> Prop :=
| exec_nil w : exec w [] w
| exec_cons w a w' tr w'' :
    step w a w' -> exec w' tr w'' -> exec w (a :: tr) w''.

(** The world in which [Start] begins to run on a batcher. *)
Definition init_world (b : Batcher) : World := mkWorld b [] [] [] Looping.

(** The queue entries that an execution admits, in order. *)
Definition submitted_by (a : action) : list batchJob :=
  match a with
  | ActAddJob job (Some jr, _) => [mkBatchJob job (ch jr)]
  | _ => []
  end.

Definition submitted (tr : list action) : list batchJob :=
  concat (map submitted_by tr).

(** The time that passes in an execution. *)
Definition elapsed_by (a : action) : Z :=
  match a with ActElapse dt => dt | _ => 0 end.

Fixpoint elapsed (tr : list action) : Z :=
  match tr with
  | [] => 0
  | a :: tr' => elapsed_by a + elapsed tr'
  end.

Definition is_ticker (a : action) : bool :=
  match a with ActTicker => true | _ => false end.

Definition is_start (a : action) : bool :=
  match a with ActStart _ | ActStartPanic _ => true | _ => false end.

(** Whether an action is a [Get] that may receive from the channel [c]. *)
Definition gets_from (c : chan) (a : action) : bool :=
  match a with ActGet jr _ _ => Nat.eqb (ch jr) c | _ => false end.

(** The jobs that are queued or whose invocation has not run yet. *)
Definition pending (w : World) : list batchJob :=
  jobs (batcher w) ++ goroutines w.

(** What every world of a running engine satisfies: the mutex is free between
    steps, every pending job has a channel of its own, which is empty, the
    ticker was made with the batcher's frequency, and the loop of [Start]
    has returned only with the flag set. *)
Record wf (w : World) : Prop := mk_wf {
  wf_mu : mu (batcher w) = false;
  wf_nodup : NoDup (retCh <$> pending w);
  wf_empty : forall bj, bj ∈ pending w -> chans w !! retCh bj = Some None;
  wf_frequency : 0 < frequency (batcher w);
  wf_period : period (ticker (batcher w)) = frequency (batcher w);
  wf_countdown : 0 <= countdown (ticker (batcher w)) <= frequency (batcher w);
  wf_returned : loop w = Returned -> shuttingDown (batcher w) = true
}.

(** The three ways in which an iteration of [Start] finishes. *)
Inductive Start_iter_spec (w : World) : ctl -> World -> Prop :=
| Start_drains :
    shuttingDown (batcher w) = true -> mu (batcher w) = false ->
    Start_iter_spec w Return
      (mkWorld (set_jobs [] (batcher w)) (chans w)
         (goroutines w ++ jobs (batcher w))
         (dispatch_log w ++ jobs (batcher w)) (loop w))
| Start_flushes_size :
    shuttingDown (batcher w) = false -> mu (batcher w) = false ->
    0 <= batchSize (batcher w) <= len (jobs (batcher w)) ->
    0 < frequency (batcher w) ->
    Start_iter_spec w Next
      (mkWorld
         (set_ticker (mkTicker (frequency (batcher w)) (frequency (batcher w)))
            (set_jobs (drop (Z.to_nat (batchSize (batcher w))) (jobs (batcher w)))
               (batcher w)))
         (chans w)
         (goroutines w ++ take (Z.to_nat (batchSize (batcher w))) (jobs (batcher w)))
         (dispatch_log w ++ take (Z.to_nat (batchSize (batcher w))) (jobs (batcher w)))
         (loop w))
| Start_idles :
    shuttingDown (batcher w) = false ->
    len (jobs (batcher w)) < batchSize (batcher w) ->
    Start_iter_spec w Next w.

(** The job [bj] is on its way through an engine whose processor is [p]: it
    is pending, or its result is in its channel. *)
Definition tracks (p : A -> B) (bj : batchJob) (w : World) : Prop :=
  processor (batcher w) = p /\
  (bj ∈ pending w \/
   chans w !! retCh bj = Some (Some (p (Data (job bj))))).


(** ** The engine at the grain of its lock

    [batch.go] does some of its reads before it takes the mutex: [AddJob]
    reads [b.shuttingDown] and makes its channel (lines 79 to 84) before the
    locked append (86 to 91); the loop of [Start] evaluates the cases of its
    [switch] (103, 115) before the locked body of the case; [startTicker]
    receives the tick (143) before the locked flush (144 to 147). Here each
    of these pieces is a computation of its own, and other goroutines may
    step between them. *)

(** [AddJob] up to the lock: [None] when the submission is rejected, the new
    channel otherwise. *)
Definition AddJob_enter : M (option chan) :=
  sd <- read shuttingDown ;;
  if sd : bool then ret None
  else
    ch <- make_chan ;;
    ret (Some ch).

(** [AddJob] from the lock on, for the entry that was made. *)
Definition AddJob_append (newJob : batchJob)
  : M (option JobResult * option error) :=
  Lock ;;
  js <- read jobs ;;
  write (set_jobs (js ++ [newJob])) ;;
  Unlock ;;
  ret (Some (mkJobResult (Id (job newJob)) None (retCh newJob)), None).

(** The body of [case b.shuttingDown] in [Start]. *)
Definition Start_case_shutdown : M ctl :=
  Lock ;;
  js <- read jobs ;;
  (if 0 <? len js then processBatch js ;; write (set_jobs []) else ret tt) ;;
  Unlock ;;
  ret Return.

(** The condition of the second case of the [switch] in [Start]. *)
Definition Start_guard : M bool :=
  js <- read jobs ;;
  n <- read batchSize ;;
  ret (n <=? len js).

(** The body of [case len(b.jobs) >= b.batchSize] in [Start]. *)
Definition Start_case_size : M ctl :=
  Lock ;;
  js <- read jobs ;;
  n <- read batchSize ;;
  batchJobs <- slice js 0 n ;;
  rest <- slice_from js n ;;
  write (set_jobs rest) ;;
  processBatch batchJobs ;;
  d <- read frequency ;;
  Reset d ;;
  Unlock ;;
  ret Next.

(** The locked part of an iteration of [startTicker]. *)
Definition startTicker_flush : M unit :=
  Lock ;;
  js <- read jobs ;;
  processBatch js ;;
  write (set_jobs []) ;;
  Unlock.

(** Where the loop of [Start] is: before its first case, before its second
    case, or in a case, before the lock. *)
Inductive start_pc := AtCase1 | AtCase2 | InCaseShutdown | InCaseSize.

(** Where the loop of [startTicker] is: before the receive, or past it with
    the tick, before the lock. *)
Inductive listener_pc := AwaitsTick | HoldsTick.

(** The world with the places of the two loops and the entries of the calls
    of [AddJob] that are past the check and before the lock. *)
Record FWorld := mkFWorld {
  base : World;
  start_at : start_pc;
  listener_at : listener_pc;
  adders : list batchJob
}.

Inductive faction :=
| FEnter (job : Job) (r : option chan)
| FAppend (bj : batchJob) (r : option JobResult * option error)
| FShutdown
| FCase1 (taken : bool)
| FCase2 (taken : bool)
| FDrain
| FSize
| FSizePanic (msg : string)
| FTickRecv
| FTickFlush
| FProcessJob (bj : batchJob)
| FGet (jr : JobResult) (v : B) (jr' : JobResult)
| FElapse (dt : Z).

Inductive fstep : FWorld -> faction -> FWorld -> Prop :=
| fstep_Enter fw job r w' :
    alive (base fw) = true -> AddJob_enter (base fw) = Done r w' ->
    fstep fw (FEnter job r)
      (mkFWorld w' (start_at fw) (listener_at fw)
         (adders fw ++
          match r with Some c => [mkBatchJob job c] | None => [] end))
| fstep_Append fw a1 bj a2 r w' :
    alive (base fw) = true -> adders fw = a1 ++ bj :: a2 ->
    AddJob_append bj (base fw) = Done r w' ->
    fstep fw (FAppend bj r)
      (mkFWorld w' (start_at fw) (listener_at fw) (a1 ++ a2))
| fstep_Shutdown fw w' :
    alive (base fw) = true -> Shutdown (base fw) = Done tt w' ->
    fstep fw FShutdown
      (mkFWorld w' (start_at fw) (listener_at fw) (adders fw))
| fstep_Case1 fw :
    loop (base fw) = Looping -> start_at fw = AtCase1 ->
    fstep fw (FCase1 (shuttingDown (batcher (base fw))))
      (mkFWorld (base fw)
         (if shuttingDown (batcher (base fw)) then InCaseShutdown else AtCase2)
         (listener_at fw) (adders fw))
| fstep_Case2 fw taken :
    loop (base fw) = Looping -> start_at fw = AtCase2 ->
    Start_guard (base fw) = Done taken (base fw) ->
    fstep fw (FCase2 taken)
      (mkFWorld (base fw) (if taken then InCaseSize else AtCase1)
         (listener_at fw) (adders fw))
| fstep_Drain fw w' :
    loop (base fw) = Looping -> start_at fw = InCaseShutdown ->
    Start_case_shutdown (base fw) = Done Return w' ->
    fstep fw FDrain
      (mkFWorld (with_loop Returned w') AtCase1 (listener_at fw) (adders fw))
| fstep_Size fw w' :
    loop (base fw) = Looping -> start_at fw = InCaseSize ->
    Start_case_size (base fw) = Done Next w' ->
    fstep fw FSize (mkFWorld w' AtCase1 (listener_at fw) (adders fw))
| fstep_Size_panic fw msg :
    loop (base fw) = Looping -> start_at fw = InCaseSize ->
    Start_case_size (base fw) = Panic msg ->
    fstep fw (FSizePanic msg)
      (mkFWorld (with_loop (Panicked msg) (base fw)) AtCase1
         (listener_at fw) (adders fw))
| fstep_TickRecv fw w' :
    alive (base fw) = true -> listener_at fw = AwaitsTick ->
    recv_tick (base fw) = Done tt w' ->
    fstep fw FTickRecv (mkFWorld w' (start_at fw) HoldsTick (adders fw))
| fstep_TickFlush fw w' :
    alive (base fw) = true -> listener_at fw = HoldsTick ->
    startTicker_flush (base fw) = Done tt w' ->
    fstep fw FTickFlush (mkFWorld w' (start_at fw) AwaitsTick (adders fw))
| fstep_processJob fw gs1 bj gs2 w' :
    alive (base fw) = true -> goroutines (base fw) = gs1 ++ bj :: gs2 ->
    processJob bj (with_goroutines (gs1 ++ gs2) (base fw)) = Done tt w' ->
    fstep fw (FProcessJob bj)
      (mkFWorld w' (start_at fw) (listener_at fw) (adders fw))
| fstep_Get fw jr v jr' w' :
    alive (base fw) = true -> Get jr (base fw) = Done (v, jr') w' ->
    fstep fw (FGet jr v jr')
      (mkFWorld w' (start_at fw) (listener_at fw) (adders fw))
| fstep_Elapse fw dt :
    alive (base fw) = true ->
    0 < dt <= countdown (ticker (batcher (base fw))) ->
    fstep fw (FElapse dt)
      (mkFWorld (elapse dt (base fw)) (start_at fw) (listener_at fw)
         (adders fw)).

Inductive fexec : FWorld -> list faction -> FWorld -> Prop :=
| fexec_nil fw : fexec fw [] fw
| fexec_cons fw a fw' tr fw'' :
    fstep fw a fw' -> fexec fw' tr fw'' -> fexec fw (a :: tr) fw''.

(** The engine when [Start] begins to run on a batcher. *)
Definition finit (b : Batcher) : FWorld :=
  mkFWorld (init_world b) AtCase1 AwaitsTick [].

(** A world between two iterations of both loops and with no submission
    under way. *)
Definition at_rest (w : World) : FWorld := mkFWorld w AtCase1 AwaitsTick [].

(** The entries that a step makes past the check, and those it appends. *)
Definition entered_by (a : faction) : list batchJob :=
  match a with
  | FEnter job (Some c) => [mkBatchJob job c]
  | _ => []
  end.

Definition appended_by (a : faction) : list batchJob :=
  match a with
  | FAppend bj _ => [bj]
  | _ => []
  end.

Definition appended (tr : list faction) : list batchJob :=
  concat (map appended_by tr).

Definition felapsed_by (a : faction) : Z :=
  match a with FElapse dt => dt | _ => 0 end.

Fixpoint felapsed (tr : list faction) : Z :=
  match tr with
  | [] => 0
  | a :: tr' => felapsed_by a + felapsed tr'
  end.

Definition is_tick_recv (a : faction) : bool :=
  match a with FTickRecv => true | _ => false end.

Definition is_tick_flush (a : faction) : bool :=
  match a with FTickFlush => true | _ => false end.

Definition is_start_step (a : faction) : bool :=
  match a with
  | FCase1 _ | FCase2 _ | FDrain | FSize | FSizePanic _ => true
  | _ => false
  end.

(** The number of timer flushes in an execution. *)
Fixpoint flushes (tr : list faction) : nat :=
  match tr with
  | [] => O
  | a :: tr' => if is_tick_flush a then S (flushes tr') else flushes tr'
  end.

(** What holds between any two steps of an engine made by [NewBatcher]: the
    mutex is free, the ticker runs with the batcher's frequency, and the
    loop of [Start] is in the shutdown case or has returned only with the
    flag set. *)
Record fwf (fw : FWorld) : Prop := mk_fwf {
  fwf_mu : mu (batcher (base fw)) = false;
  fwf_frequency : 0 < frequency (batcher (base fw));
  fwf_period : period (ticker (batcher (base fw))) = frequency (batcher (base fw));
  fwf_countdown :
    0 <= countdown (ticker (batcher (base fw))) <= frequency (batcher (base fw));
  fwf_case :
    start_at fw = InCaseShutdown -> shuttingDown (batcher (base fw)) = true;
  fwf_returned :
    loop (base fw) = Returned -> shuttingDown (batcher (base fw)) = true
}.

(** ** Loops and callers *)

(** The [for] loop of [Start] on its own, for at most [fuel] iterations with
    no other goroutine in between: [Return] when the loop has returned,
    [Next] when it is still going round. *)
Fixpoint Start_loop (fuel : nat) : M ctl :=
  match fuel with
  | O => ret Next
  | S fuel' =>
      c <- Start_iter ;;
      match c with
      | Return => ret Return
      | Next => Start_loop fuel'
      end
  end.

(** [for _, job := range jobs { b.AddJob(job) }], the loop of the tests,
    with what each call returns. *)
Fixpoint AddJobs (js : list Job)
  : M (list (option JobResult * option error)) :=
  match js with
  | [] => ret []
  | j :: rest =>
      r <- AddJob j ;;
      rs <- AddJobs rest ;;
      ret (r :: rs)
  end.

(** The calls that come from the users of a batcher, as opposed to the steps
    of its own goroutines and of time. *)
Definition is_client (a : action) : bool :=
  match a with
  | ActAddJob _ _ | ActShutdown | ActGet _ _ _ => true
  | _ => false
  end.

Fixpoint client_calls (tr : list action) : list action :=
  match tr with
  | [] => []
  | a :: tr' => if is_client a then a :: client_calls tr' else client_calls tr'
  end.

(** The calls of [main] in [example/main.go] on its batcher, after
    [go b.Start()]: two submissions, whose errors make it panic, [Get] on the
    first and on the second future, and [Shutdown]. *)
Definition main_calls (jobA jobB : Job) (resA resB : JobResult)
    (strA strB : B) (resA' resB' : JobResult) : list action :=
  [ActAddJob jobA (Some resA, None);
   ActAddJob jobB (Some resB, None);
   ActGet resA strA resA';
   ActGet resB strB resB';
   ActShutdown].

(** The invocations of [processJob] in an execution that send on [c]. *)
Fixpoint writes_to (c : chan) (tr : list action) : nat :=
  match tr with
  | [] => O
  | ActProcessJob bj :: tr' =>
      if Nat.eqb (retCh bj) c then S (writes_to c tr') else writes_to c tr'
  | _ :: tr' => writes_to c tr'
  end.

(** The channels of [n] submissions in a row, from the store size [c] on. *)
Definition entries_from (c : nat) (js : list Job) : list batchJob :=
  imap (fun i j => mkBatchJob j (c + i)) js.

End Microbatcher.

Arguments Job : clear implicits.
Arguments JobResult : clear implicits.
Arguments batchJob : clear implicits.
Arguments Batcher : clear implicits.
Arguments World : clear implicits.
Arguments action : clear implicits.

(** ** The processor of the package's tests

    [uppercaseString] is [strings.ToUpper], here on ASCII text. *)

Definition upper_ascii (c : ascii) : ascii :=
  let n := nat_of_ascii c in
  if (Nat.leb 97 n && Nat.leb n 122)%bool then ascii_of_nat (n - 32) else c.

Fixpoint uppercaseString (s : string) : string :=
  match s with
  | EmptyString => EmptyString
  | String c s' => String (upper_ascii c) (uppercaseString s')
  end.

Definition FIVE_MINUTES : Z := 5 * 60 * 1000000000.
Definition ONE_MILLISECOND : Z := 1000000.

(** ** The worlds of the package's tests *)

(** The world after a computation that finishes. *)
Definition run {A B T} (c : World A B -> outcome (World A B) T)
    (w : World A B) : World A B :=
  match c w with
  | Done _ w' => w'
  | _ => w
  end.

(** What [NewBatcher uppercaseString frequency batchSize] makes. *)
Definition test_batcher (frequency batchSize : Z) : Batcher string string :=
  mkBatcher uppercaseString batchSize frequency false []
    (mkTicker frequency frequency) false.

Definition job1 : Job string := mkJob 1 "hello world"%string.
Definition job2 : Job string := mkJob 2 "foobar"%string.
Definition job3 : Job string := mkJob 3 "baz"%string.
Definition job4 : Job string := mkJob 4 "job 4"%string.

Definition future (id : Z) (c : chan) : JobResult string := mkJobResult id None c.

(** [TestBatcherBatchSize]: batch size 1, two jobs, two size flushes. *)
Definition size_0 : World string string := init_world (test_batcher FIVE_MINUTES 1).
Definition size_1 := run (AddJob job1) size_0.
Definition size_2 := run (AddJob job2) size_1.
Definition size_3 := run Start_iter size_2.
Definition size_4 := run Start_iter size_3.
Definition size_5 :=
  run (processJob (mkBatchJob job1 0)) (with_goroutines [mkBatchJob job2 1%nat] size_4).
Definition size_6 :=
  run (processJob (mkBatchJob job2 1)) (with_goroutines [] size_5).

(** [TestBatcherBatchSizeProcessesCorrectNumber]: batch size 2, three jobs. *)
Definition three_0 : World string string := init_world (test_batcher FIVE_MINUTES 2).
Definition three_3 :=
  run (AddJob job3) (run (AddJob job2) (run (AddJob job1) three_0)).
Definition three_4 := run Start_iter three_3.

(** [TestBatcherTimout]: batch size 10, two jobs, the first tick. *)
Definition timer_0 : World string string :=
  init_world (test_batcher ONE_MILLISECOND 10).
Definition timer_2 := run (AddJob job2) (run (AddJob job1) timer_0).
Definition timer_3 := elapse ONE_MILLISECOND timer_2.
Definition timer_4 := run startTicker_iter timer_3.

(** [TestBatcherShutdownClearsQueue]: a fourth job, then [Shutdown] and the
    drain. *)
Definition drain_5 := run (AddJob job4) three_4.
Definition drain_6 := run Shutdown drain_5.
Definition drain_7 := with_loop Returned (run Start_iter drain_6).


(** A batcher made with batch size 0, and a job submitted to it. *)
Definition zero_1 : World string string :=
  run (AddJob job1) (init_world (test_batcher FIVE_MINUTES 0)).

(** The batcher and the jobs of [main] in [example/main.go]. *)
Definition FIVE_SECONDS : Z := 5 * 1000000000.
Definition main_jobA : Job string := mkJob 1 "input"%string.
Definition main_jobB : Job string := mkJob 2 "another input"%string.

(** * Properties *)

Section Properties.

Context {A B : Type}.

Implicit Types (w : World A B) (b : Batcher A B) (bj : batchJob A)
  (job : Job A) (jr : JobResult B) (tr : list (action A B)).

(** ** What each computation does, as an equation *)

Lemma processBatch_eq batch w :
  processBatch batch w =
  Done tt (mkWorld (batcher w) (chans w) (goroutines w ++ batch)
             (dispatch_log w ++ batch) (loop w)).
Proof.
  revert w. induction batch as [|bj batch IH]; intros w.
  - destruct w; simpl. unfold ret. by rewrite !app_nil_r.
  - simpl. unfold bind, go_processJob. rewrite IH. simpl.
    by rewrite <- !app_assoc.
Qed.

Lemma slice_prefix (js : list (batchJob A)) n w :
  0 <= n <= len js ->
  slice js 0 n w = Done (take (Z.to_nat n) js) w.
Proof.
  intros Hn. unfold slice, len in *.
  replace (0 <=? 0) with true by reflexivity.
  destruct (Z.leb_spec 0 n); [|lia].
  destruct (Z.leb_spec n (Z.of_nat (length js))); [|lia].
  reflexivity.
Qed.

Lemma slice_from_suffix (js : list (batchJob A)) n w :
  0 <= n <= len js ->
  slice_from js n w = Done (drop (Z.to_nat n) js) w.
Proof.
  intros Hn. unfold slice_from, slice, len in *.
  destruct (Z.leb_spec 0 n); [|lia].
  destruct (Z.leb_spec n (Z.of_nat (length js))); [|lia].
  rewrite Z.leb_refl. simpl. rewrite Nat2Z.id, firstn_all. reflexivity.
Qed.

Lemma slice_negative (js : list (batchJob A)) n w :
  n < 0 -> slice js 0 n w = Panic "slice bounds out of range".
Proof.
  intros Hn. unfold slice.
  destruct (Z.leb_spec 0 n); [lia|]. reflexivity.
Qed.

(** The rejected submission. *)
Lemma AddJob_rejected job w :
  shuttingDown (batcher w) = true ->
  AddJob job w = Done (None, Some SubmissionRejected) w.
Proof. intros H. unfold AddJob, bind, read. rewrite H. reflexivity. Qed.

(** The admitted submission. *)
Lemma AddJob_admitted job w :
  shuttingDown (batcher w) = false -> mu (batcher w) = false ->
  AddJob job w =
  Done (Some (mkJobResult (Id job) None (length (chans w))), None)
    (mkWorld
       (set_jobs (jobs (batcher w) ++ [mkBatchJob job (length (chans w))])
          (batcher w))
       (chans w ++ [None]) (goroutines w) (dispatch_log w) (loop w)).
Proof.
  intros Hsd Hmu. destruct w as [[p n f sd js t m] cs gs lg l].
  simpl in *. subst. reflexivity.
Qed.

(** The shutdown branch of [Start]. *)
Lemma Start_iter_shutdown w :
  shuttingDown (batcher w) = true -> mu (batcher w) = false ->
  Start_iter w =
  Done Return
    (mkWorld (set_jobs [] (batcher w)) (chans w)
       (goroutines w ++ jobs (batcher w))
       (dispatch_log w ++ jobs (batcher w)) (loop w)).
Proof.
  intros Hsd Hmu. destruct w as [[p n f sd js t m] cs gs lg l].
  simpl in *. subst. unfold Start_iter, bind, read, Lock. simpl.
  destruct js as [|bj js].
  - simpl. by rewrite !app_nil_r.
  - replace (0 <? len (bj :: js)) with true
      by (symmetry; apply Z.ltb_lt; unfold len; simpl; lia).
    unfold bind. rewrite processBatch_eq. reflexivity.
Qed.

(** The size branch of [Start]. *)
Lemma Start_iter_size w :
  shuttingDown (batcher w) = false -> mu (batcher w) = false ->
  0 <= batchSize (batcher w) <= len (jobs (batcher w)) ->
  0 < frequency (batcher w) ->
  let n := Z.to_nat (batchSize (batcher w)) in
  Start_iter w =
  Done Next
    (mkWorld
       (set_ticker (mkTicker (frequency (batcher w)) (frequency (batcher w)))
          (set_jobs (drop n (jobs (batcher w))) (batcher w)))
       (chans w)
       (goroutines w ++ take n (jobs (batcher w)))
       (dispatch_log w ++ take n (jobs (batcher w))) (loop w)).
Proof.
  intros Hsd Hmu Hn Hf. destruct w as [[p n f sd js t m] cs gs lg l].
  simpl in *. subst. unfold Start_iter, bind, read, Lock. simpl.
  destruct (Z.leb_spec n (len js)); [|lia]. simpl.
  rewrite slice_prefix, slice_from_suffix by (simpl; lia).
  unfold write. simpl. rewrite processBatch_eq. simpl.
  unfold Reset, Ticker_Reset. simpl.
  destruct (Z.leb_spec f 0); [lia|]. reflexivity.
Qed.

(** No case of the [switch] holds. *)
Lemma Start_iter_idle w :
  shuttingDown (batcher w) = false ->
  len (jobs (batcher w)) < batchSize (batcher w) ->
  Start_iter w = Done Next w.
Proof.
  intros Hsd Hn. unfold Start_iter, bind, read. rewrite Hsd.
  destruct (Z.leb_spec (batchSize (batcher w)) (len (jobs (batcher w)))); [lia|].
  reflexivity.
Qed.

(** A negative batch size: the first slice expression panics. *)
Lemma Start_iter_negative w :
  shuttingDown (batcher w) = false -> mu (batcher w) = false ->
  batchSize (batcher w) < 0 ->
  Start_iter w = Panic "slice bounds out of range".
Proof.
  intros Hsd Hmu Hn. destruct w as [[p n f sd js t m] cs gs lg l].
  simpl in *. subst. unfold Start_iter, bind, read, Lock. simpl.
  destruct (Z.leb_spec n (len js)); [|unfold len in *; lia]. simpl.
  by rewrite slice_negative.
Qed.

(** An iteration of [startTicker] on a tick. *)
Lemma startTicker_iter_eq w :
  countdown (ticker (batcher w)) = 0 -> mu (batcher w) = false ->
  startTicker_iter w =
  Done tt
    (mkWorld
       (set_jobs []
          (set_ticker (mkTicker (period (ticker (batcher w)))
                         (period (ticker (batcher w)))) (batcher w)))
       (chans w)
       (goroutines w ++ jobs (batcher w))
       (dispatch_log w ++ jobs (batcher w)) (loop w)).
Proof.
  intros Ht Hmu. destruct w as [[p n f sd js [pd cd] m] cs gs lg l].
  simpl in *. subst.
  unfold startTicker_iter, bind, recv_tick, Ticker_recv, tick_ready. simpl.
  rewrite processBatch_eq. reflexivity.
Qed.

(** Without a tick the listener waits. *)
Lemma startTicker_iter_waits w :
  countdown (ticker (batcher w)) <> 0 -> startTicker_iter w = Blocked.
Proof.
  intros Ht. unfold startTicker_iter, bind, recv_tick, Ticker_recv, tick_ready.
  destruct (Z.eqb_spec (countdown (ticker (batcher w))) 0); [done|]. reflexivity.
Qed.

(** ** What a finished computation implies *)

Lemma AddJob_Done job w r w' :
  AddJob job w = Done r w' ->
  (shuttingDown (batcher w) = true /\ r = (None, Some SubmissionRejected) /\
   w' = w) \/
  (shuttingDown (batcher w) = false /\ mu (batcher w) = false /\
   r = (Some (mkJobResult (Id job) None (length (chans w))), None) /\
   w' = mkWorld
          (set_jobs (jobs (batcher w) ++ [mkBatchJob job (length (chans w))])
             (batcher w))
          (chans w ++ [None]) (goroutines w) (dispatch_log w) (loop w)).
Proof.
  intros H. destruct (shuttingDown (batcher w)) eqn:Hsd.
  - rewrite AddJob_rejected in H by done. left. by inversion H.
  - destruct (mu (batcher w)) eqn:Hmu.
    + unfold AddJob, bind, read, make_chan, Lock in H.
      rewrite Hsd in H. simpl in H. rewrite Hmu in H. discriminate.
    + rewrite AddJob_admitted in H by done. right. by inversion H.
Qed.

Lemma Start_iter_blocked w :
  mu (batcher w) = true ->
  shuttingDown (batcher w) = true \/
  batchSize (batcher w) <= len (jobs (batcher w)) ->
  Start_iter w = Blocked.
Proof.
  intros Hmu H. destruct w as [[p n f sd js t m] cs gs lg l].
  simpl in *. subst. unfold Start_iter, bind, read, Lock. simpl.
  destruct sd; [done|].
  destruct H as [|H]; [done|].
  cbn [batcher batchSize jobs].
  destruct (Z.leb_spec n (len js)); [done|lia].
Qed.

Lemma Start_iter_bad_frequency w :
  shuttingDown (batcher w) = false -> mu (batcher w) = false ->
  0 <= batchSize (batcher w) <= len (jobs (batcher w)) ->
  frequency (batcher w) <= 0 ->
  Start_iter w = Panic "non-positive interval for Ticker.Reset".
Proof.
  intros Hsd Hmu Hn Hf. destruct w as [[p n f sd js t m] cs gs lg l].
  simpl in *. subst. unfold Start_iter, bind, read, Lock. simpl.
  destruct (Z.leb_spec n (len js)); [|lia]. simpl.
  rewrite slice_prefix, slice_from_suffix by (simpl; lia).
  unfold write. simpl. rewrite processBatch_eq. simpl.
  unfold Reset, Ticker_Reset. simpl.
  destruct (Z.leb_spec f 0); [|lia]. reflexivity.
Qed.

Lemma Start_iter_Done w c w' :
  Start_iter w = Done c w' -> Start_iter_spec w c w'.
Proof.
  intros H.
  destruct (shuttingDown (batcher w)) eqn:Hsd;
    destruct (mu (batcher w)) eqn:Hmu.
  - rewrite Start_iter_blocked in H by auto. discriminate.
  - rewrite Start_iter_shutdown in H by done. inversion H. by constructor.
  - destruct (Z.leb_spec (batchSize (batcher w)) (len (jobs (batcher w)))).
    + rewrite Start_iter_blocked in H by auto. discriminate.
    + rewrite Start_iter_idle in H by done. inversion H; subst.
      by apply Start_idles.
  - destruct (Z.leb_spec (batchSize (batcher w)) (len (jobs (batcher w)))).
    + destruct (Z.ltb_spec (batchSize (batcher w)) 0).
      { rewrite Start_iter_negative in H by done. discriminate. }
      destruct (Z.leb_spec (frequency (batcher w)) 0).
      { rewrite Start_iter_bad_frequency in H by (done || lia). discriminate. }
      rewrite Start_iter_size in H by (done || lia). inversion H.
      apply Start_flushes_size; (done || lia).
    + rewrite Start_iter_idle in H by done. inversion H; subst.
      by apply Start_idles.
Qed.

Lemma startTicker_iter_Done w w' :
  startTicker_iter w = Done tt w' ->
  countdown (ticker (batcher w)) = 0 /\ mu (batcher w) = false /\
  w' = mkWorld
         (set_jobs []
            (set_ticker (mkTicker (period (ticker (batcher w)))
                           (period (ticker (batcher w)))) (batcher w)))
         (chans w)
         (goroutines w ++ jobs (batcher w))
         (dispatch_log w ++ jobs (batcher w)) (loop w).
Proof.
  intros H.
  destruct (Z.eq_dec (countdown (ticker (batcher w))) 0) as [Hc|Hc].
  - destruct (mu (batcher w)) eqn:Hmu.
    + unfold startTicker_iter, bind, recv_tick, Ticker_recv, tick_ready, Lock in H.
      rewrite Hc in H. simpl in H. rewrite Hmu in H. discriminate.
    + rewrite startTicker_iter_eq in H by done. by inversion H.
  - rewrite startTicker_iter_waits in H by done. discriminate.
Qed.

Lemma processJob_Done bj w w' :
  processJob bj w = Done tt w' ->
  chans w !! retCh bj = Some None /\
  w' = with_chans
         (<[retCh bj := Some (processor (batcher w) (Data (job bj)))]> (chans w)) w.
Proof.
  unfold processJob, bind, read, send. intros H.
  destruct (chans w !! retCh bj) as [[v|]|]; try discriminate.
  by inversion H.
Qed.

Lemma processJob_eq bj w :
  chans w !! retCh bj = Some None ->
  processJob bj w =
  Done tt
    (with_chans
       (<[retCh bj := Some (processor (batcher w) (Data (job bj)))]> (chans w)) w).
Proof. intros H. unfold processJob, bind, read, send. by rewrite H. Qed.

Lemma Get_cached jr w v :
  data jr = Some v -> Get jr w = Done (v, jr) w.
Proof. intros H. unfold Get. by rewrite H. Qed.

Lemma Get_received jr w v :
  data jr = None -> chans w !! ch jr = Some (Some v) ->
  Get jr w =
  Done (v, mkJobResult (JobId jr) (Some v) (ch jr))
    (with_chans (<[ch jr := None]> (chans w)) w).
Proof. intros Hd Hc. unfold Get, bind, recv. by rewrite Hd, Hc. Qed.

Lemma Get_blocks jr w :
  data jr = None -> (forall v, chans w !! ch jr <> Some (Some v)) ->
  Get jr w = Blocked.
Proof.
  intros Hd Hc. unfold Get, bind, recv. rewrite Hd.
  destruct (chans w !! ch jr) as [[v|]|]; try done. by destruct (Hc v).
Qed.

Lemma Get_Done jr w v jr' w' :
  Get jr w = Done (v, jr') w' ->
  (data jr = Some v /\ jr' = jr /\ w' = w) \/
  (data jr = None /\ chans w !! ch jr = Some (Some v) /\
   jr' = mkJobResult (JobId jr) (Some v) (ch jr) /\
   w' = with_chans (<[ch jr := None]> (chans w)) w).
Proof.
  intros H. destruct (data jr) as [v0|] eqn:Hd.
  - rewrite (Get_cached _ _ v0) in H by done. left. by inversion H.
  - right. unfold Get, bind, recv in H. rewrite Hd in H.
    destruct (chans w !! ch jr) as [[v0|]|]; try discriminate.
    by inversion H.
Qed.

(** ** The invariant [wf] holds along every execution *)

Lemma pending_lt w :
  wf w -> forall bj, bj ∈ pending w -> (retCh bj < length (chans w))%nat.
Proof. intros Hw bj Hbj. eapply lookup_lt_Some, (wf_empty _ Hw), Hbj. Qed.

Lemma wf_init_world b :
  mu b = false -> jobs b = [] -> 0 < frequency b ->
  period (ticker b) = frequency b ->
  0 <= countdown (ticker b) <= frequency b ->
  wf (init_world b).
Proof.
  intros Hmu Hjs Hf Hp Hc. constructor; simpl; try done.
  - unfold pending. simpl. rewrite Hjs. constructor.
  - unfold pending. simpl. rewrite Hjs. intros bj Hbj. by inversion Hbj.
Qed.

Lemma wf_NewBatcher p f n b :
  NewBatcher p f n = Some b -> wf (init_world b).
Proof.
  unfold NewBatcher, NewTicker. destruct (Z.leb_spec f 0); [done|].
  intros [= <-]. apply wf_init_world; simpl; (done || lia).
Qed.

(** Moving pending jobs between the queue and the goroutines keeps their
    channels apart and empty. *)
Lemma wf_pending_perm w w' :
  wf w -> pending w' ≡ₚ pending w -> chans w' = chans w ->
  NoDup (retCh <$> pending w') /\
  (forall bj, bj ∈ pending w' -> chans w' !! retCh bj = Some None).
Proof.
  intros Hw Hp Hc. split.
  - rewrite Hp. apply Hw.
  - intros bj Hbj. rewrite Hc. apply Hw. by rewrite <- Hp.
Qed.

Lemma wf_AddJob w job :
  wf w -> shuttingDown (batcher w) = false ->
  wf (mkWorld
        (set_jobs (jobs (batcher w) ++ [mkBatchJob job (length (chans w))])
           (batcher w))
        (chans w ++ [None]) (goroutines w) (dispatch_log w) (loop w)).
Proof.
  intros Hw Hsd. pose proof (pending_lt w Hw) as Hlt.
  destruct Hw as [Hmu Hnd Hem Hf Hp Hc Hr]. unfold pending in *.
  constructor; simpl; try done.
  - unfold pending. simpl. rewrite <- app_assoc. simpl.
    rewrite fmap_app, fmap_cons. simpl.
    rewrite fmap_app in Hnd. apply NoDup_app in Hnd as (Hn1 & Hn2 & Hn3).
    apply NoDup_app. split; [done|]. split.
    + intros c Hc1 Hc2. apply elem_of_cons in Hc2 as [->|Hc2]; [|by eapply Hn2].
      apply list_elem_of_fmap in Hc1 as (bj & Heq & Hbj).
      assert (retCh bj < length (chans w))%nat
        by (apply Hlt, elem_of_app; auto).
      simpl in Heq. lia.
    + apply NoDup_cons. split; [|done].
      intros Hc1. apply list_elem_of_fmap in Hc1 as (bj & Heq & Hbj).
      assert (retCh bj < length (chans w))%nat
        by (apply Hlt, elem_of_app; auto).
      simpl in Heq. lia.
  - unfold pending. simpl. intros bj Hbj.
    rewrite <- app_assoc in Hbj. simpl in Hbj.
    apply elem_of_app in Hbj as [Hbj|Hbj];
      [|apply elem_of_cons in Hbj as [->|Hbj]].
    + rewrite lookup_app_l by (apply Hlt, elem_of_app; auto).
      apply Hem, elem_of_app; auto.
    + simpl. apply list_lookup_middle. done.
    + rewrite lookup_app_l by (apply Hlt, elem_of_app; auto).
      apply Hem, elem_of_app; auto.
Qed.

Lemma wf_Start w c w' :
  wf w -> loop w = Looping -> Start_iter_spec w c w' -> wf (after_Start c w').
Proof.
  intros Hw Hl Hs. destruct Hs as [Hsd Hmu|Hsd Hmu Hn Hf|Hsd Hn].
  - destruct (wf_pending_perm w
      (mkWorld (set_jobs [] (batcher w)) (chans w)
         (goroutines w ++ jobs (batcher w))
         (dispatch_log w ++ jobs (batcher w)) (loop w)) Hw) as [Hnd Hem];
      [unfold pending; simpl; apply Permutation_app_comm|done|].
    destruct Hw. constructor; simpl; done.
  - destruct (wf_pending_perm w
      (mkWorld
         (set_ticker (mkTicker (frequency (batcher w)) (frequency (batcher w)))
            (set_jobs (drop (Z.to_nat (batchSize (batcher w))) (jobs (batcher w)))
               (batcher w)))
         (chans w)
         (goroutines w ++ take (Z.to_nat (batchSize (batcher w))) (jobs (batcher w)))
         (dispatch_log w ++ take (Z.to_nat (batchSize (batcher w))) (jobs (batcher w)))
         (loop w)) Hw) as [Hnd Hem]; [|done|].
    { unfold pending. simpl.
      rewrite (Permutation_app_comm (goroutines w)), app_assoc.
      rewrite (Permutation_app_comm (drop _ _)), take_drop. done. }
    destruct Hw. constructor; simpl; done || lia.
  - simpl. done.
Qed.

Lemma wf_startTicker w :
  wf w ->
  wf (mkWorld
        (set_jobs []
           (set_ticker (mkTicker (period (ticker (batcher w)))
                          (period (ticker (batcher w)))) (batcher w)))
        (chans w)
        (goroutines w ++ jobs (batcher w))
        (dispatch_log w ++ jobs (batcher w)) (loop w)).
Proof.
  intros Hw.
  destruct (wf_pending_perm w
      (mkWorld
        (set_jobs []
           (set_ticker (mkTicker (period (ticker (batcher w)))
                          (period (ticker (batcher w)))) (batcher w)))
        (chans w)
        (goroutines w ++ jobs (batcher w))
        (dispatch_log w ++ jobs (batcher w)) (loop w)) Hw) as [Hnd Hem];
    [unfold pending; simpl; apply Permutation_app_comm|done|].
  destruct Hw as [Hmu _ _ Hf Hp Hc Hr]. constructor; simpl; done || lia.
Qed.

Lemma wf_processJob w gs1 bj gs2 v :
  wf w -> goroutines w = gs1 ++ bj :: gs2 ->
  wf (with_chans (<[retCh bj := v]> (chans w)) (with_goroutines (gs1 ++ gs2) w)).
Proof.
  intros Hw Hgs. destruct Hw as [Hmu Hnd Hem Hf Hp Hc Hr].
  unfold pending in *. rewrite Hgs in *.
  constructor; simpl; try done; unfold pending; simpl.
  - rewrite !fmap_app, fmap_cons in Hnd. rewrite !fmap_app.
    apply NoDup_app in Hnd as (Hn1 & Hn2 & Hn3).
    apply NoDup_app in Hn3 as (Hn3 & Hn4 & Hn5).
    apply NoDup_cons in Hn5 as [Hn5 Hn6].
    apply NoDup_app. split; [done|]. split.
    + intros c Hc1 Hc2. apply (Hn2 c Hc1).
      rewrite elem_of_app, elem_of_cons. rewrite elem_of_app in Hc2. tauto.
    + apply NoDup_app. split; [done|]. split; [|done].
      intros c Hc1 Hc2. apply (Hn4 c Hc1). apply elem_of_cons. auto.
  - intros bj' Hbj'.
    assert (Hin : bj' ∈ jobs (batcher w) ++ gs1 ++ bj :: gs2).
    { rewrite !elem_of_app, elem_of_cons. rewrite !elem_of_app in Hbj'. tauto. }
    rewrite list_lookup_insert_ne; [by apply Hem|].
    intros Heq.
    rewrite !fmap_app, fmap_cons in Hnd.
    apply NoDup_app in Hnd as (Hn1 & Hn2 & Hn3).
    apply NoDup_app in Hn3 as (Hn3 & Hn4 & Hn5).
    apply NoDup_cons in Hn5 as [Hn5 Hn6].
    rewrite !elem_of_app in Hbj'. destruct Hbj' as [Hb|[Hb|Hb]].
    + apply (Hn2 (retCh bj')); [by apply list_elem_of_fmap_2|].
      rewrite elem_of_app, elem_of_cons. auto.
    + apply (Hn4 (retCh bj')); [by apply list_elem_of_fmap_2|].
      apply elem_of_cons. auto.
    + apply Hn5. rewrite Heq. by apply list_elem_of_fmap_2.
Qed.

Lemma wf_recv w c :
  wf w -> wf (with_chans (<[c := None]> (chans w)) w).
Proof.
  intros Hw. pose proof (pending_lt w Hw) as Hlt.
  destruct Hw as [Hmu Hnd Hem Hf Hp Hc Hr].
  constructor; simpl; try done. intros bj Hbj.
  change (pending (with_chans (<[c:=None]> (chans w)) w)) with (pending w) in Hbj.
  destruct (decide (c = retCh bj)) as [->|Hne].
  - apply list_lookup_insert_eq. by apply Hlt.
  - rewrite list_lookup_insert_ne by done. by apply Hem.
Qed.

Lemma wf_elapse w dt :
  wf w -> 0 < dt <= countdown (ticker (batcher w)) -> wf (elapse dt w).
Proof.
  intros [Hmu Hnd Hem Hf Hp Hc Hr] Hdt.
  constructor; simpl; try done. lia.
Qed.

Lemma wf_with_loop_Panicked w msg : wf w -> wf (with_loop (Panicked msg) w).
Proof. intros [Hmu Hnd Hem Hf Hp Hc Hr]. constructor; simpl; done. Qed.

Lemma wf_Shutdown w : wf w -> wf (with_batcher (set_shuttingDown true) w).
Proof.
  intros [Hmu Hnd Hem Hf Hp Hc Hr]. constructor; simpl; done.
Qed.

Lemma step_wf w a w' : wf w -> step w a w' -> wf w'.
Proof.
  intros Hw Hs. destruct Hs as
    [w job r w' _ H|w w' _ H|w c w' Hl H|w msg Hl H|w w' _ H
    |w gs1 bj gs2 w' _ Hgs H|w jr v jr' w' _ H|w dt _ Hdt].
  - apply AddJob_Done in H as [(_ & _ & ->)|(Hsd & _ & _ & ->)]; [done|].
    by apply wf_AddJob.
  - injection H as <-. by apply wf_Shutdown.
  - apply Start_iter_Done in H. eapply wf_Start; eauto.
  - by apply wf_with_loop_Panicked.
  - apply startTicker_iter_Done in H as (_ & _ & ->). by apply wf_startTicker.
  - apply processJob_Done in H as (_ & ->).
    apply (wf_processJob w gs1 bj gs2); done.
  - apply Get_Done in H as [(_ & _ & ->)|(_ & _ & _ & ->)]; [done|].
    by apply wf_recv.
  - by apply wf_elapse.
Qed.

Lemma exec_wf w tr w' : wf w -> exec w tr w' -> wf w'.
Proof. intros Hw He. induction He; eauto using step_wf. Qed.

Lemma exec_app w tr1 w1 tr2 w2 :
  exec w tr1 w1 -> exec w1 tr2 w2 -> exec w (tr1 ++ tr2) w2.
Proof. intros H1 H2. induction H1; simpl; eauto using exec_cons. Qed.

(** ** Submission *)

(** C2: with the mutex free, [AddJob] ends with the SubmissionRejected error
    exactly when [shuttingDown] is set at the call, and then it returns no
    future ([nil]) and leaves the world, so the queue, as it was; otherwise it
    returns no error, appends exactly one entry for the job at the tail of the
    queue and returns a new future with the job's [Id], no cached value and a
    channel that did not exist before and is empty, so that [Get] on it
    blocks. *)
Theorem AddJob_rejects_iff_shuttingDown job w :
  mu (batcher w) = false ->
  exists r w',
    AddJob job w = Done r w' /\
    (r.2 = Some SubmissionRejected <-> shuttingDown (batcher w) = true) /\
    (r.2 = None <-> shuttingDown (batcher w) = false) /\
    (shuttingDown (batcher w) = true -> r.1 = None /\ w' = w) /\
    (shuttingDown (batcher w) = false ->
     exists jr,
       r.1 = Some jr /\
       jobs (batcher w') = jobs (batcher w) ++ [mkBatchJob job (ch jr)] /\
       JobId jr = Id job /\ data jr = None /\
       chans w !! ch jr = None /\ chans w' !! ch jr = Some None /\
       Get jr w' = Blocked /\
       goroutines w' = goroutines w /\ dispatch_log w' = dispatch_log w).
Proof.
  intros Hmu. destruct (shuttingDown (batcher w)) eqn:Hsd.
  - eexists _, _. split; [by apply AddJob_rejected|]. simpl.
    repeat split; try done.
  - eexists _, _. split; [by apply AddJob_admitted|]. simpl.
    repeat split; try done. intros _. eexists. split; [done|]. simpl.
    assert (Hnew : (chans w ++ [None]) !! length (chans w) = Some (@None B))
      by (by apply list_lookup_middle).
    repeat split; try done.
    + apply lookup_ge_None. lia.
    + apply Get_blocks; [done|]. simpl. intros v. by rewrite Hnew.
Qed.

(** ** The size trigger *)


(** ** The timer trigger *)

(** C4: on a tick (the mutex being free), one iteration of the loop of
    [startTicker] starts the invocations of the whole queue, in queue order,
    and leaves the queue empty, whatever the batch size; on an empty queue
    nothing is started. *)
Theorem timer_flush_takes_whole_queue w :
  tick_ready (ticker (batcher w)) = true -> mu (batcher w) = false ->
  exists w',
    startTicker_iter w = Done tt w' /\
    jobs (batcher w') = [] /\
    goroutines w' = goroutines w ++ jobs (batcher w) /\
    dispatch_log w' = dispatch_log w ++ jobs (batcher w) /\
    chans w' = chans w /\
    batchSize (batcher w') = batchSize (batcher w) /\
    (jobs (batcher w) = [] ->
     goroutines w' = goroutines w /\ dispatch_log w' = dispatch_log w).
Proof.
  intros Ht Hmu. apply Z.eqb_eq in Ht.
  eexists. split; [by apply startTicker_iter_eq|]. simpl.
  do 5 (split; [done|]). intros ->. by rewrite !app_nil_r.
Qed.

(** ** The shutdown drain *)

Lemma step_Returned w a w' :
  step w a w' -> loop w = Returned ->
  loop w' = Returned /\ is_start a = false.
Proof.
  intros Hs Hl. destruct Hs as
    [w job r w' _ H|w w' _ H|w c w' Hl' H|w msg Hl' H|w w' _ H
    |w gs1 bj gs2 w' _ Hgs H|w jr v jr' w' _ H|w dt _ Hdt];
    try congruence.
  - by apply AddJob_Done in H as [(_ & _ & ->)|(_ & _ & _ & ->)].
  - by injection H as <-.
  - by apply startTicker_iter_Done in H as (_ & _ & ->).
  - by apply processJob_Done in H as (_ & ->).
  - by apply Get_Done in H as [(_ & _ & ->)|(_ & _ & _ & ->)].
  - done.
Qed.

Lemma exec_Returned w tr w' :
  exec w tr w' -> loop w = Returned ->
  loop w' = Returned /\ Forall (fun a => is_start a = false) tr.
Proof.
  intros He. induction He as [|w a w1 tr w2 Hs He IH]; intros Hl; [done|].
  destruct (step_Returned _ _ _ Hs Hl) as [Hl1 Ha].
  destruct (IH Hl1). auto.
Qed.

(** C6: when an iteration of the loop of [Start] finds [shuttingDown] set (the
    mutex being free), it starts the invocations of the whole queue, which
    may be empty, leaves the queue empty, of length zero, and returns; from
    then on the loop is in the state [Returned] for good and no step of
    [Start] happens any more. An iteration returns only in that branch:
    whenever one finishes, it returns exactly when [shuttingDown] was set. *)
Theorem shutdown_drains_and_returns w :
  shuttingDown (batcher w) = true -> mu (batcher w) = false ->
  loop w = Looping ->
  (exists w',
     Start_iter w = Done Return w' /\
     step w (ActStart Return) (with_loop Returned w') /\
     jobs (batcher w') = [] /\ len (jobs (batcher w')) = 0 /\
     goroutines w' = goroutines w ++ jobs (batcher w) /\
     dispatch_log w' = dispatch_log w ++ jobs (batcher w) /\
     (forall tr w2,
        exec (with_loop Returned w') tr w2 ->
        loop w2 = Returned /\ Forall (fun a => is_start a = false) tr)) /\
  (forall w0 c w0',
     Start_iter w0 = Done c w0' ->
     (c = Return <-> shuttingDown (batcher w0) = true)).
Proof.
  intros Hsd Hmu Hl. split.
  - eexists. split; [by apply Start_iter_shutdown|].
    split; [|do 4 (split; [done|])].
    + apply (step_Start w Return); [done|]. by apply Start_iter_shutdown.
    + intros tr w2 He. by apply (exec_Returned _ _ _ He).
  - intros w0 c w0' H. apply Start_iter_Done in H.
    destruct H; split; congruence.
Qed.

(** ** The result future *)

(** C7: [Get] on a future with a cached value returns it and touches nothing,
    the channel included; without one it blocks while the channel is empty,
    and otherwise takes the value out of the channel, caches it and returns
    it. Whenever a call has returned [v], every later call on the future, in
    whatever world, returns [v] and leaves future and world as they are. *)
Theorem Get_idempotent_caching jr w :
  (forall v, data jr = Some v -> Get jr w = Done (v, jr) w) /\
  (data jr = None ->
   (forall v, chans w !! ch jr = Some (Some v) ->
      Get jr w =
      Done (v, mkJobResult (JobId jr) (Some v) (ch jr))
        (with_chans (<[ch jr := None]> (chans w)) w)) /\
   ((forall v, chans w !! ch jr <> Some (Some v)) -> Get jr w = Blocked)) /\
  (forall v jr1 w1,
     Get jr w = Done (v, jr1) w1 ->
     data jr1 = Some v /\
     forall w2, Get jr1 w2 = Done (v, jr1) w2).
Proof.
  split; [intros v; apply Get_cached|]. split.
  - intros Hd. split; [|by apply Get_blocks].
    intros v Hc. by apply Get_received.
  - intros v jr1 w1 H.
    apply Get_Done in H as [(Hd & -> & _)|(_ & _ & -> & _)].
    + split; [done|]. intros w2. by apply Get_cached.
    + split; [done|]. intros w2. by apply Get_cached.
Qed.

(** ** Order *)

(** What a step does to the queue: it takes a prefix off the head, whose
    invocations it starts in order, and puts what it admits at the tail. *)
Lemma step_queue w a w' :
  step w a w' ->
  exists batch rest,
    jobs (batcher w) = batch ++ rest /\
    jobs (batcher w') = rest ++ submitted_by a /\
    dispatch_log w' = dispatch_log w ++ batch.
Proof.
  intros Hs. destruct Hs as
    [w job r w' _ H|w w' _ H|w c w' Hl H|w msg Hl H|w w' _ H
    |w gs1 bj gs2 w' _ Hgs H|w jr v jr' w' _ H|w dt _ Hdt].
  - apply AddJob_Done in H as [(_ & -> & ->)|(_ & _ & -> & ->)];
      exists [], (jobs (batcher w)); simpl; by rewrite !app_nil_r.
  - injection H as <-.
    exists [], (jobs (batcher w)); simpl; by rewrite !app_nil_r.
  - apply Start_iter_Done in H. destruct H as [Hsd Hmu|Hsd Hmu Hn Hf|Hsd Hn].
    + exists (jobs (batcher w)), []. simpl. by rewrite !app_nil_r.
    + exists (take (Z.to_nat (batchSize (batcher w))) (jobs (batcher w))),
        (drop (Z.to_nat (batchSize (batcher w))) (jobs (batcher w))).
      simpl. by rewrite take_drop, app_nil_r.
    + exists [], (jobs (batcher w)); simpl; by rewrite !app_nil_r.
  - exists [], (jobs (batcher w)); simpl; by rewrite !app_nil_r.
  - apply startTicker_iter_Done in H as (_ & _ & ->).
    exists (jobs (batcher w)), []. simpl. by rewrite !app_nil_r.
  - apply processJob_Done in H as (_ & ->).
    exists [], (jobs (batcher w)); simpl; by rewrite !app_nil_r.
  - apply Get_Done in H as [(_ & _ & ->)|(_ & _ & _ & ->)];
      exists [], (jobs (batcher w)); simpl; by rewrite !app_nil_r.
  - exists [], (jobs (batcher w)); simpl; by rewrite !app_nil_r.
Qed.

Lemma exec_queue w tr w' :
  exec w tr w' ->
  dispatch_log w' ++ jobs (batcher w') =
  dispatch_log w ++ jobs (batcher w) ++ submitted tr.
Proof.
  intros He. induction He as [|w a w1 tr w2 Hs He IH].
  - unfold submitted. simpl. by rewrite app_nil_r.
  - destruct (step_queue _ _ _ Hs) as (batch & rest & Hj & Hj1 & Hd).
    rewrite IH, Hj, Hj1, Hd. unfold submitted. simpl.
    by rewrite <- !app_assoc.
Qed.

(** C8: every step of the engine takes the jobs whose invocations it starts
    as a prefix off the head of the queue, in queue order, and puts the job it
    admits at the tail. So along every execution the jobs dispatched so far,
    followed by the queue, are what was there at the start followed by the
    admitted jobs in the order of their admission; from an empty engine the
    dispatch order is a prefix of the submission order and the queue holds
    the rest. *)
Theorem queue_preserves_submission_order :
  (forall w a w',
     step w a w' ->
     exists batch rest,
       jobs (batcher w) = batch ++ rest /\
       jobs (batcher w') = rest ++ submitted_by a /\
       dispatch_log w' = dispatch_log w ++ batch) /\
  (forall w tr w',
     exec w tr w' ->
     dispatch_log w' ++ jobs (batcher w') =
     dispatch_log w ++ jobs (batcher w) ++ submitted tr) /\
  (forall (b : Batcher A B) tr w',
     jobs b = [] -> exec (init_world b) tr w' ->
     dispatch_log w' ++ jobs (batcher w') = submitted tr).
Proof.
  split; [exact step_queue|]. split; [exact exec_queue|].
  intros b tr w' Hb He. apply exec_queue in He. simpl in He.
  by rewrite Hb in He.
Qed.

(** ** Delivery *)

Lemma step_config w a w' :
  step w a w' ->
  processor (batcher w') = processor (batcher w) /\
  batchSize (batcher w') = batchSize (batcher w) /\
  frequency (batcher w') = frequency (batcher w).
Proof.
  intros Hs. destruct Hs as
    [w job r w' _ H|w w' _ H|w c w' Hl H|w msg Hl H|w w' _ H
    |w gs1 bj gs2 w' _ Hgs H|w jr v jr' w' _ H|w dt _ Hdt].
  - by apply AddJob_Done in H as [(_ & _ & ->)|(_ & _ & _ & ->)].
  - by injection H as <-.
  - apply Start_iter_Done in H. by destruct H.
  - done.
  - by apply startTicker_iter_Done in H as (_ & _ & ->).
  - by apply processJob_Done in H as (_ & ->).
  - by apply Get_Done in H as [(_ & _ & ->)|(_ & _ & _ & ->)].
  - done.
Qed.

(** A job on its way stays on its way, as long as nobody receives from its
    channel. *)
Lemma step_tracks p bj w a w' :
  wf w -> tracks p bj w -> step w a w' -> gets_from (retCh bj) a = false ->
  tracks p bj w'.
Proof.
  intros Hw [Hp Ht] Hs Hg.
  split; [destruct (step_config _ _ _ Hs) as (-> & _); done|].
  destruct Hs as
    [w job r w' _ H|w w' _ H|w c w' Hl H|w msg Hl H|w w' _ H
    |w gs1 bj0 gs2 w' _ Hgs H|w jr v jr' w' _ H|w dt _ Hdt].
  - apply AddJob_Done in H as [(_ & _ & ->)|(_ & _ & _ & ->)]; [done|].
    destruct Ht as [Ht|Ht].
    + left. unfold pending in *. simpl.
      rewrite !elem_of_app in *. tauto.
    + right. simpl. rewrite lookup_app_l; [done|]. by eapply lookup_lt_Some.
  - by injection H as <-.
  - apply Start_iter_Done in H. destruct H as [Hsd Hmu|Hsd Hmu Hn Hf|Hsd Hn].
    + destruct Ht as [Ht|Ht]; [left|by right].
      unfold pending in *. simpl. rewrite !elem_of_app in *. tauto.
    + destruct Ht as [Ht|Ht]; [left|by right].
      unfold pending in *. simpl.
      rewrite <- (take_drop (Z.to_nat (batchSize (batcher w))) (jobs (batcher w)))
        in Ht.
      rewrite !elem_of_app in *. tauto.
    + done.
  - done.
  - apply startTicker_iter_Done in H as (_ & _ & ->).
    destruct Ht as [Ht|Ht]; [left|by right].
    unfold pending in *. simpl. rewrite !elem_of_app in *. tauto.
  - apply processJob_Done in H as (Hc & ->). simpl in Hc. simpl.
    destruct Ht as [Ht|Ht].
    + unfold pending in *. rewrite Hgs in Ht. simpl.
      rewrite !elem_of_app, elem_of_cons in Ht. rewrite !elem_of_app.
      destruct Ht as [Ht|[Ht|[->|Ht]]]; try tauto.
      right. rewrite Hp. apply list_lookup_insert_eq. by eapply lookup_lt_Some.
    + right. rewrite list_lookup_insert_ne; [done|]. congruence.
  - apply Get_Done in H as [(_ & _ & ->)|(_ & _ & _ & ->)]; [done|].
    simpl in Hg. apply Nat.eqb_neq in Hg.
    destruct Ht as [Ht|Ht]; [by left|right]. simpl.
    by rewrite list_lookup_insert_ne.
  - done.
Qed.

(** ** The ticker *)

Lemma step_elapsed_nonneg w a w' : step w a w' -> 0 <= elapsed_by a.
Proof. intros Hs. destruct Hs; simpl; lia. Qed.

Lemma exec_elapsed_nonneg w tr w' : exec w tr w' -> 0 <= elapsed tr.
Proof.
  intros He. induction He as [|w a w1 tr w2 Hs He IH]; simpl; [lia|].
  apply step_elapsed_nonneg in Hs. lia.
Qed.

(** Apart from the listener's receive, a step lowers the countdown by the
    time that passes at most. *)
Lemma step_countdown w a w' :
  wf w -> step w a w' -> is_ticker a = false ->
  countdown (ticker (batcher w)) <=
  countdown (ticker (batcher w')) + elapsed_by a.
Proof.
  intros Hw Hs Ha. destruct Hs as
    [w job r w' _ H|w w' _ H|w c w' Hl H|w msg Hl H|w w' _ H
    |w gs1 bj gs2 w' _ Hgs H|w jr v jr' w' _ H|w dt _ Hdt]; simpl.
  - apply AddJob_Done in H as [(_ & _ & ->)|(_ & _ & _ & ->)]; simpl; lia.
  - injection H as <-. simpl. lia.
  - apply Start_iter_Done in H. destruct H; simpl; try lia.
    destruct Hw. lia.
  - lia.
  - done.
  - apply processJob_Done in H as (_ & ->). simpl. lia.
  - apply Get_Done in H as [(_ & _ & ->)|(_ & _ & _ & ->)]; simpl; lia.
  - lia.
Qed.

(** The listener gets no tick before the countdown has elapsed. *)
Lemma no_tick_before w tr w' :
  wf w -> exec w tr w' -> Exists (fun a => is_ticker a = true) tr ->
  countdown (ticker (batcher w)) <= elapsed tr.
Proof.
  intros Hw He. induction He as [|w a w1 tr w2 Hs He IH]; intros Hex.
  - by apply Exists_nil in Hex.
  - simpl. destruct (is_ticker a) eqn:Ha.
    + destruct a; try discriminate. inversion Hs as [| | | |w0 w0' _ H| | |]; subst.
      apply startTicker_iter_Done in H as (Hc & _).
      apply exec_elapsed_nonneg in He. simpl. lia.
    + apply Exists_cons in Hex as [Hex|Hex]; [congruence|].
      pose proof (step_countdown _ _ _ Hw Hs Ha).
      specialize (IH (step_wf _ _ _ Hw Hs) Hex). lia.
Qed.

(** ** Configuration *)


End Properties.

(** * The package's tests as instances *)

Example size_6_results :
  Get (future 1 0) size_6 =
    Done ("HELLO WORLD"%string, mkJobResult 1 (Some "HELLO WORLD"%string) 0%nat)
      (with_chans [None; Some "FOOBAR"%string] size_6) /\
  Get (future 2 1) size_6 =
    Done ("FOOBAR"%string, mkJobResult 2 (Some "FOOBAR"%string) 1%nat)
      (with_chans [Some "HELLO WORLD"%string; None] size_6) /\
  jobs (batcher size_6) = [].
Proof. repeat split. Qed.

Example three_4_queue :
  jobs (batcher three_4) = [mkBatchJob job3 2%nat] /\
  goroutines three_4 = [mkBatchJob job1 0%nat; mkBatchJob job2 1%nat].
Proof. split; reflexivity. Qed.

Example timer_4_queue :
  jobs (batcher timer_4) = [] /\
  goroutines timer_4 = [mkBatchJob job1 0%nat; mkBatchJob job2 1%nat].
Proof. split; reflexivity. Qed.

Example drain_7_queue :
  jobs (batcher drain_7) = [] /\
  goroutines drain_7 =
    [mkBatchJob job1 0%nat; mkBatchJob job2 1%nat; mkBatchJob job3 2%nat;
     mkBatchJob job4 3%nat] /\
  AddJob job1 drain_7 = Done (None, Some SubmissionRejected) drain_7.
Proof. repeat split. Qed.

(** The worlds above belong to running engines. *)

Lemma wf_test_world f n : 0 < f -> wf (init_world (test_batcher f n)).
Proof. intros Hf. apply wf_init_world; simpl; (reflexivity || lia). Defined.

Ltac concrete_step :=
  first
    [ apply step_AddJob; lazy; reflexivity
    | apply step_Shutdown; lazy; reflexivity
    | eapply (step_Start _ Next); lazy; reflexivity
    | eapply (step_Start _ Return); lazy; reflexivity
    | apply step_Ticker; lazy; reflexivity
    | apply step_Elapse;
        [reflexivity | vm_compute; split; [reflexivity | discriminate]]
    | eapply (step_processJob _ []); lazy; reflexivity
    | eapply (step_processJob _ [_]); lazy; reflexivity ].

Ltac concrete_exec :=
  repeat (first [ apply exec_nil | eapply exec_cons; [concrete_step|] ]).

Lemma exec_size_2 :
  exec size_0
    [ActAddJob job1 (Some (future 1 0), None);
     ActAddJob job2 (Some (future 2 1), None)] size_2.
Proof. concrete_exec. Defined.

Lemma exec_size_6 :
  exec size_2
    [ActStart Next; ActStart Next;
     ActProcessJob (mkBatchJob job1 0); ActProcessJob (mkBatchJob job2 1)]
    size_6.
Proof. concrete_exec. Defined.

Lemma exec_three_3 :
  exec three_0
    [ActAddJob job1 (Some (future 1 0), None);
     ActAddJob job2 (Some (future 2 1), None);
     ActAddJob job3 (Some (future 3 2), None)] three_3.
Proof. concrete_exec. Defined.

Lemma exec_three_4 : exec three_3 [ActStart Next] three_4.
Proof. concrete_exec. Defined.

Lemma wf_size_1 : wf size_1.
Proof.
  apply (step_wf size_0 (ActAddJob job1 (Some (future 1 0), None))).
  - apply wf_test_world. reflexivity.
  - concrete_step.
Defined.

Lemma wf_three_3 : wf three_3.
Proof.
  apply (exec_wf three_0 _ _ (wf_test_world FIVE_MINUTES 2 eq_refl) exec_three_3).
Defined.

(** A submission to the new batcher of [TestBatcherBatchSize]. *)
Lemma AddJob_rejects_iff_shuttingDown_witness :
  mu (batcher size_0) = false /\
  exists r w',
    AddJob job1 size_0 = Done r w' /\
    (r.2 = None <-> shuttingDown (batcher size_0) = false).
Proof.
  split; [reflexivity|].
  destruct (AddJob_rejects_iff_shuttingDown job1 size_0 eq_refl)
    as (r & w' & H & _ & H2 & _).
  exists r, w'. split; [exact H|exact H2].
Defined.


(** The first tick of [TestBatcherTimout]. *)
Lemma timer_flush_takes_whole_queue_witness :
  tick_ready (ticker (batcher timer_3)) = true /\
  exists w',
    startTicker_iter timer_3 = Done tt w' /\
    jobs (batcher w') = [] /\
    goroutines w' = goroutines timer_3 ++ jobs (batcher timer_3).
Proof.
  split; [reflexivity|].
  destruct (timer_flush_takes_whole_queue timer_3 eq_refl eq_refl)
    as (w' & H1 & H2 & H3 & _).
  exists w'. repeat split; assumption.
Defined.

(** The drain of [TestBatcherShutdownClearsQueue]. *)
Lemma shutdown_drains_and_returns_witness :
  shuttingDown (batcher drain_6) = true /\
  exists w',
    Start_iter drain_6 = Done Return w' /\
    len (jobs (batcher w')) = 0 /\
    goroutines w' = goroutines drain_6 ++ jobs (batcher drain_6).
Proof.
  split; [reflexivity|].
  destruct (shutdown_drains_and_returns drain_6 eq_refl eq_refl eq_refl)
    as ((w' & H1 & _ & _ & H4 & H5 & _) & _).
  exists w'. repeat split; assumption.
Defined.

(** [TestBatcherJobResultReaccessingOutput], on the first future of
    [TestBatcherBatchSize]. *)
Lemma Get_idempotent_caching_witness :
  exists jr1 w1,
    Get (future 1 0) size_6 = Done ("HELLO WORLD"%string, jr1) w1 /\
    forall w2 : World string string,
      Get jr1 w2 = Done ("HELLO WORLD"%string, jr1) w2.
Proof.
  destruct (Get_idempotent_caching (future 1 0) size_6) as (_ & _ & H).
  eexists _, _. split; [reflexivity|].
  apply (H "HELLO WORLD"%string _ _ eq_refl).
Defined.

(** The order of [TestBatcherShutdownClearsQueue] up to the size flush. *)
Lemma queue_preserves_submission_order_witness :
  dispatch_log three_4 ++ jobs (batcher three_4) =
  [mkBatchJob job1 0%nat; mkBatchJob job2 1%nat; mkBatchJob job3 2%nat].
Proof.
  destruct (@queue_preserves_submission_order string string) as (_ & _ & H).
  apply (H (test_batcher FIVE_MINUTES 2)
           [ActAddJob job1 (Some (future 1 0), None);
            ActAddJob job2 (Some (future 2 1), None);
            ActAddJob job3 (Some (future 3 2), None);
            ActStart Next] three_4 eq_refl).
  exact (exec_app _ _ three_3 [ActStart Next] _ exec_three_3 exec_three_4).
Defined.



(** * Further properties of [batch.go] and its callers *)

Section Further.

Context {A B : Type}.

Implicit Types (w : World A B) (b : Batcher A B) (bj : batchJob A)
  (job : Job A) (jr : JobResult B) (tr : list (action A B)).

(** ** The configuration is fixed *)

Lemma exec_config w tr w' :
  exec w tr w' ->
  processor (batcher w') = processor (batcher w) /\
  batchSize (batcher w') = batchSize (batcher w) /\
  frequency (batcher w') = frequency (batcher w).
Proof.
  intros He. induction He as [|w a w1 tr w2 Hs He IH]; [done|].
  destruct (step_config _ _ _ Hs) as (<- & <- & <-). done.
Qed.

(** X2: what [NewBatcher] was given never changes: along every execution the
    processor, the batch size and the frequency are those of the call, the
    period of the ticker is the frequency, and the time left on the ticker
    stays between zero and the frequency. *)
Theorem configuration_is_immutable (p : A -> B) f n b tr w :
  NewBatcher p f n = Some b -> exec (init_world b) tr w ->
  processor (batcher w) = p /\ batchSize (batcher w) = n /\
  frequency (batcher w) = f /\ period (ticker (batcher w)) = f /\
  0 <= countdown (ticker (batcher w)) <= f.
Proof.
  intros Hnew He.
  pose proof (exec_wf _ _ _ (wf_NewBatcher _ _ _ _ Hnew) He) as Hw.
  pose proof (exec_config _ _ _ He) as Hcfg.
  unfold NewBatcher in Hnew. destruct (NewTicker f); [|done].
  injection Hnew as <-. simpl in Hcfg. destruct Hcfg as (Hp & Hn & Hf).
  rewrite <- Hf. split; [done|]. split; [done|]. split; [done|].
  split; apply Hw.
Qed.

(** ** Results *)

Lemma step_results (p : A -> B) w a w' :
  step w a w' -> processor (batcher w) = p ->
  (forall bj, bj ∈ goroutines w -> bj ∈ dispatch_log w) ->
  (forall c v,
     chans w !! c = Some (Some v) ->
     exists bj, bj ∈ dispatch_log w /\ retCh bj = c /\ v = p (Data (job bj))) ->
  (forall bj, bj ∈ goroutines w' -> bj ∈ dispatch_log w') /\
  (forall c v,
     chans w' !! c = Some (Some v) ->
     exists bj, bj ∈ dispatch_log w' /\ retCh bj = c /\ v = p (Data (job bj))).
Proof.
  intros Hs Hp Hg Hc. destruct Hs as
    [w job r w' _ H|w w' _ H|w c0 w' Hl H|w msg Hl H|w w' _ H
    |w gs1 bj0 gs2 w' _ Hgs H|w jr v0 jr' w' _ H|w dt _ Hdt]; try done.
  - apply AddJob_Done in H as [(_ & _ & ->)|(_ & _ & _ & ->)]; [done|].
    simpl. split; [done|]. intros c v Hcv.
    apply lookup_app_Some in Hcv as [Hcv|[_ Hcv]]; [by apply Hc|].
    destruct (c - length (chans w))%nat; simpl in Hcv; [|done]. by inversion Hcv.
  - by injection H as <-.
  - apply Start_iter_Done in H. destruct H as [Hsd Hmu|Hsd Hmu Hn Hf|Hsd Hn];
      [| |done]; simpl; split.
    + intros bj. rewrite !elem_of_app. intros [Hin|Hin]; auto.
    + intros c v Hcv. destruct (Hc c v Hcv) as (bj & Hin & Heq).
      exists bj. rewrite elem_of_app. auto.
    + intros bj. rewrite !elem_of_app. intros [Hin|Hin]; auto.
    + intros c v Hcv. destruct (Hc c v Hcv) as (bj & Hin & Heq).
      exists bj. rewrite elem_of_app. auto.
  - apply startTicker_iter_Done in H as (_ & _ & ->). simpl. split.
    + intros bj. rewrite !elem_of_app. intros [Hin|Hin]; auto.
    + intros c v Hcv. destruct (Hc c v Hcv) as (bj & Hin & Heq).
      exists bj. rewrite elem_of_app. auto.
  - apply processJob_Done in H as (_ & ->). simpl. rewrite Hgs in Hg. split.
    + intros bj Hin. apply Hg. rewrite elem_of_app, elem_of_cons.
      rewrite elem_of_app in Hin. tauto.
    + intros c v Hcv.
      apply list_lookup_insert_Some in Hcv as [(<- & [= <-] & _)|(_ & Hcv)];
        [|by apply Hc].
      exists bj0. split; [|by rewrite Hp].
      apply Hg. rewrite elem_of_app, elem_of_cons. auto.
  - apply Get_Done in H as [(_ & _ & ->)|(_ & _ & _ & ->)]; [done|].
    simpl. split; [done|]. intros c v Hcv.
    apply list_lookup_insert_Some in Hcv as [(_ & [=] & _)|(_ & Hcv)].
    by apply Hc.
Qed.

(** X4: whatever sits in a channel is the processor's output for a job that
    was dispatched with that channel. So in every world that the engine
    reaches from its start, a [Get] on a future without a cached value can
    only return the output of the dispatched job that owns the future's
    channel; no result appears for a job that was not dispatched. *)
Theorem results_come_from_dispatched_jobs (b : Batcher A B) tr w :
  exec (init_world b) tr w ->
  (forall c v,
     chans w !! c = Some (Some v) ->
     exists bj,
       bj ∈ dispatch_log w /\ retCh bj = c /\
       v = processor b (Data (job bj))) /\
  (forall jr v jr' w',
     data jr = None -> Get jr w = Done (v, jr') w' ->
     exists bj,
       bj ∈ dispatch_log w /\ retCh bj = ch jr /\
       v = processor b (Data (job bj))).
Proof.
  intros He.
  assert (Hinv :
    (forall bj, bj ∈ goroutines w -> bj ∈ dispatch_log w) /\
    (forall c v,
       chans w !! c = Some (Some v) ->
       exists bj,
         bj ∈ dispatch_log w /\ retCh bj = c /\
         v = processor b (Data (job bj)))).
  { remember (init_world b) as w0 eqn:Hw0.
    assert (Hp : processor (batcher w0) = processor b) by (by subst).
    assert (H0 :
      (forall bj, bj ∈ goroutines w0 -> bj ∈ dispatch_log w0) /\
      (forall c v,
         chans w0 !! c = Some (Some v) ->
         exists bj,
           bj ∈ dispatch_log w0 /\ retCh bj = c /\
           v = processor b (Data (job bj)))) by (by subst).
    clear Hw0. induction He as [|w a w1 tr w2 Hs He IH]; [done|].
    destruct H0 as [Hg Hc]. apply IH.
    - by destruct (step_config _ _ _ Hs) as (-> & _).
    - by apply (step_results _ w a w1). }
  destruct Hinv as [_ Hc]. split; [done|].
  intros jr v jr' w' Hd HG.
  apply Get_Done in HG as [(Hd' & _)|(_ & Hcv & _)]; [congruence|]. by apply Hc.
Qed.

Lemma step_pending w a w' :
  step w a w' ->
  (length (chans w) <= length (chans w'))%nat /\
  (forall bj,
     bj ∈ pending w' ->
     bj ∈ pending w \/ (length (chans w) <= retCh bj)%nat).
Proof.
  intros Hs. unfold pending. destruct Hs as
    [w job r w' _ H|w w' _ H|w c0 w' Hl H|w msg Hl H|w w' _ H
    |w gs1 bj0 gs2 w' _ Hgs H|w jr v0 jr' w' _ H|w dt _ Hdt];
    try (split; [done|by left]).
  - apply AddJob_Done in H as [(_ & _ & ->)|(_ & _ & _ & ->)]; [by auto|].
    simpl. rewrite length_app. split; [lia|]. intros bj.
    rewrite !elem_of_app, list_elem_of_singleton.
    intros [[Hin| ->]|Hin]; [by auto|right; simpl; lia|by auto].
  - injection H as <-. by auto.
  - apply Start_iter_Done in H. destruct H as [Hsd Hmu|Hsd Hmu Hn Hf|Hsd Hn];
      [| |by auto]; simpl; (split; [done|]); intros bj.
    + rewrite !elem_of_app. intros [Hin|Hin]; auto.
    + rewrite <- (take_drop (Z.to_nat (batchSize (batcher w))) (jobs (batcher w)))
        at 3.
      rewrite !elem_of_app. intros [Hin|[Hin|Hin]]; auto.
  - apply startTicker_iter_Done in H as (_ & _ & ->). simpl.
    split; [done|]. intros bj.
    rewrite !elem_of_app. intros [Hin|Hin]; auto.
  - apply processJob_Done in H as (_ & ->). simpl. rewrite length_insert.
    split; [done|]. intros bj. rewrite Hgs, !elem_of_app, elem_of_cons. tauto.
  - apply Get_Done in H as [(_ & _ & ->)|(_ & _ & _ & ->)]; [by auto|].
    simpl. rewrite length_insert. by auto.
Qed.

Lemma exec_writes c w tr w' :
  wf w -> exec w tr w' ->
  ((c < length (chans w))%nat -> c ∉ retCh <$> pending w ->
   writes_to c tr = O) /\
  (writes_to c tr <= 1)%nat.
Proof.
  intros Hw He. induction He as [|w a w1 tr w2 Hs He IH]; [simpl; auto|].
  pose proof (step_wf _ _ _ Hw Hs) as Hw1.
  destruct (IH Hw1) as [IHa IHb].
  destruct (step_pending _ _ _ Hs) as [Hlen Hsub].
  assert (Hkeep : (c < length (chans w))%nat -> c ∉ retCh <$> pending w ->
                  writes_to c tr = O).
  { intros Hc Hout. apply IHa; [lia|]. intros Hin.
    apply list_elem_of_fmap in Hin as (bj & -> & Hin).
    destruct (Hsub bj Hin) as [Hin'|Hge]; [|lia].
    apply Hout. by apply list_elem_of_fmap_2. }
  destruct a as [job r| |c0|msg| |bj0|jr v jr'|dt]; simpl; try (split; [done|done]).
  inversion Hs as [| | | | |w0 gs1 bj1 gs2 w0' _ Hgs H| |]; subst.
  assert (Hbj0 : bj0 ∈ pending w).
  { unfold pending. rewrite Hgs, !elem_of_app, elem_of_cons. auto. }
  destruct (Nat.eqb_spec (retCh bj0) c) as [<-|Hne].
  - split.
    + intros _ Hout. destruct Hout. by apply list_elem_of_fmap_2.
    + enough (writes_to (retCh bj0) tr = O) by lia.
      apply IHa; [pose proof (pending_lt _ Hw _ Hbj0); lia|].
      apply processJob_Done in H as (_ & ->).
      pose proof (wf_nodup _ Hw) as Hnd. unfold pending in *. simpl.
      rewrite Hgs, !fmap_app, fmap_cons in Hnd.
      apply NoDup_app in Hnd as (_ & Hn2 & Hn3).
      apply NoDup_app in Hn3 as (_ & Hn4 & Hn5).
      apply NoDup_cons in Hn5 as [Hn5 _].
      rewrite !fmap_app, !elem_of_app. intros [Hin|[Hin|Hin]].
      * apply (Hn2 _ Hin). rewrite elem_of_app, elem_of_cons. auto.
      * apply (Hn4 _ Hin). apply elem_of_cons. auto.
      * done.
  - done.
Qed.

(** X5: every channel is written at most once. Along every execution of a
    running engine at most one invocation of [processJob] sends on a given
    channel, and none sends on a channel that exists and whose job is no
    longer pending. *)
Theorem channel_written_at_most_once c w tr w' :
  wf w -> exec w tr w' ->
  (writes_to c tr <= 1)%nat /\
  ((c < length (chans w))%nat -> c ∉ retCh <$> pending w ->
   writes_to c tr = O).
Proof.
  intros Hw He. destruct (exec_writes c w tr w' Hw He). done.
Qed.

(** X6: a started invocation never blocks. In every world that a new batcher
    reaches, the channel of each started invocation that has not run yet is
    empty, so [processJob] finishes, without anybody having called [Get]: it
    puts the processor's output for the job's data into the job's channel
    and leaves every other channel as it is. *)
Theorem started_invocations_never_block (p : A -> B) f n b tr w bj :
  NewBatcher p f n = Some b -> exec (init_world b) tr w ->
  bj ∈ goroutines w ->
  exists w',
    processJob bj w = Done tt w' /\
    chans w' !! retCh bj = Some (Some (p (Data (job bj)))) /\
    (forall c, c <> retCh bj -> chans w' !! c = chans w !! c) /\
    batcher w' = batcher w.
Proof.
  intros Hnew He Hin.
  pose proof (exec_wf _ _ _ (wf_NewBatcher _ _ _ _ Hnew) He) as Hw.
  destruct (exec_config _ _ _ He) as (Hp & _). 
  unfold NewBatcher in Hnew. destruct (NewTicker f); [|done].
  injection Hnew as <-. simpl in Hp.
  assert (Hc : chans w !! retCh bj = Some None).
  { apply Hw. unfold pending. rewrite elem_of_app. by right. }
  eexists. split; [by apply processJob_eq|]. simpl. rewrite Hp.
  split; [|split; [|done]].
  - apply list_lookup_insert_eq. by eapply lookup_lt_Some.
  - intros c Hne. by rewrite list_lookup_insert_ne.
Qed.

(** ** The loop of [Start] on its own *)

Lemma Start_loop_idle fuel w :
  shuttingDown (batcher w) = false ->
  len (jobs (batcher w)) < batchSize (batcher w) ->
  Start_loop fuel w = Done Next w.
Proof.
  intros Hsd Hn. induction fuel as [|fuel IH]; [done|].
  simpl. unfold bind. by rewrite Start_iter_idle.
Qed.

Lemma Start_loop_flushes fuel :
  forall w,
    shuttingDown (batcher w) = false -> mu (batcher w) = false ->
    0 < frequency (batcher w) -> 0 < batchSize (batcher w) ->
    let k := Z.to_nat (batchSize (batcher w)) in
    let m := (fuel `min` (length (jobs (batcher w)) / k))%nat in
    exists w',
      Start_loop fuel w = Done Next w' /\
      jobs (batcher w') = drop (m * k) (jobs (batcher w)) /\
      dispatch_log w' = dispatch_log w ++ take (m * k) (jobs (batcher w)) /\
      goroutines w' = goroutines w ++ take (m * k) (jobs (batcher w)) /\
      chans w' = chans w /\ shuttingDown (batcher w') = false.
Proof.
  induction fuel as [|fuel IH]; intros w Hsd Hmu Hf Hn k m.
  - exists w. subst m. simpl. by rewrite !app_nil_r.
  - assert (Hk : (0 < k)%nat) by (subst k; lia).
    destruct (decide (length (jobs (batcher w)) < k)%nat) as [Hlt|Hge].
    + exists w. assert (Hm : m = O).
      { subst m. rewrite Nat.div_small by done. lia. }
      rewrite Hm. simpl. rewrite !app_nil_r.
      split; [|done]. apply (Start_loop_idle (S fuel)); [done|].
      unfold len. subst k. lia.
    + assert (Hlen : 0 <= batchSize (batcher w) <= len (jobs (batcher w)))
        by (unfold len; subst k; lia).
      pose proof (Start_iter_size w Hsd Hmu Hlen Hf) as HS. fold k in HS.
      cbv zeta in HS. set (w1 := mkWorld _ _ _ _ _) in HS.
      destruct (IH w1) as (w' & HL & Hj & Hd & Hg & Hc & Hsd'); try done.
      simpl in Hj, Hd, Hg, Hc. fold k in Hj, Hd, Hg.
      rewrite length_drop in Hj, Hd, Hg.
      set (m1 := (fuel `min` ((length (jobs (batcher w)) - k) / k))%nat) in *.
      assert (Hm : m = S m1).
      { subst m m1.
        replace (length (jobs (batcher w)))
          with ((length (jobs (batcher w)) - k) + 1 * k)%nat at 1 by lia.
        rewrite Nat.div_add by lia. lia. }
      exists w'. rewrite Hm. split; [|split; [|split; [|split]]].
      * simpl. unfold bind. by rewrite HS.
      * rewrite Hj, drop_drop. f_equal; lia.
      * rewrite Hd, <- app_assoc, take_take_drop. reflexivity.
      * rewrite Hg, <- app_assoc, take_take_drop. reflexivity.
      * done.
Qed.

(** X7: the loop of [Start], left alone with a positive batch size and
    [shuttingDown] unset, never returns, however many iterations it makes. It
    flushes one batch of exactly [batchSize] jobs per iteration while the
    queue holds that many, in queue order, and then goes round idle: once it
    has made at least [length / batchSize] iterations, the queue holds the
    last [length mod batchSize] jobs and everything before them has been
    dispatched. *)
Theorem Start_loop_flushes_whole_batches fuel w :
  shuttingDown (batcher w) = false -> mu (batcher w) = false ->
  0 < frequency (batcher w) -> 0 < batchSize (batcher w) ->
  let k := Z.to_nat (batchSize (batcher w)) in
  let L := length (jobs (batcher w)) in
  (L / k <= fuel)%nat ->
  exists w',
    Start_loop fuel w = Done Next w' /\
    jobs (batcher w') = drop (L - L mod k) (jobs (batcher w)) /\
    length (jobs (batcher w')) = (L mod k)%nat /\
    dispatch_log w' = dispatch_log w ++ take (L - L mod k) (jobs (batcher w)) /\
    goroutines w' = goroutines w ++ take (L - L mod k) (jobs (batcher w)) /\
    chans w' = chans w.
Proof.
  intros Hsd Hmu Hf Hn k L Hfuel.
  destruct (Start_loop_flushes fuel w Hsd Hmu Hf Hn)
    as (w' & HL & Hj & Hd & Hg & Hc & _).
  fold k in Hj, Hd, Hg. fold L in Hj, Hd, Hg.
  assert (Hm : ((fuel `min` (L / k)) * k = L - L mod k)%nat).
  { rewrite Nat.min_r by done. rewrite Nat.Div0.mod_eq. 
    pose proof (Nat.Div0.mul_div_le L k). lia. }
  rewrite Hm in Hj, Hd, Hg. exists w'.
  split; [done|]. split; [done|]. split; [|done].
  rewrite Hj, length_drop. fold L.
  pose proof (Nat.Div0.mod_le L k). lia.
Qed.

Lemma Start_loop_zero fuel :
  forall w,
    shuttingDown (batcher w) = false -> mu (batcher w) = false ->
    0 < frequency (batcher w) -> batchSize (batcher w) = 0 ->
    exists w',
      Start_loop fuel w = Done Next w' /\
      jobs (batcher w') = jobs (batcher w) /\
      dispatch_log w' = dispatch_log w /\
      goroutines w' = goroutines w /\
      chans w' = chans w /\
      frequency (batcher w') = frequency (batcher w) /\
      mu (batcher w') = false /\
      (fuel <> O ->
       ticker (batcher w') =
       mkTicker (frequency (batcher w)) (frequency (batcher w))).
Proof.
  induction fuel as [|fuel IH]; intros w Hsd Hmu Hf Hn.
  - exists w. by repeat split.
  - assert (Hlen : 0 <= batchSize (batcher w) <= len (jobs (batcher w)))
      by (unfold len; lia).
    pose proof (Start_iter_size w Hsd Hmu Hlen Hf) as HS.
    cbv zeta in HS. rewrite Hn in HS. simpl in HS.
    rewrite drop_0, !app_nil_r in HS. set (w1 := mkWorld _ _ _ _ _) in HS.
    destruct (IH w1) as (w' & HL & Hj & Hd & Hg & Hc & Hf' & Hmu' & Ht);
      try done.
    exists w'. split; [simpl; unfold bind; by rewrite HS|].
    do 6 (split; [done|]). intros _.
    destruct fuel as [|fuel]; [|by apply Ht].
    simpl in HL. by injection HL as <-.
Qed.

(** X8: with batch size 0 the loop of [Start] starves the queue. Left alone
    with [shuttingDown] unset, it dispatches nothing, whatever the queue
    holds and however many iterations it makes, and each iteration resets the
    ticker, so that after any iteration no tick is ready and the listener of
    [startTicker] blocks. *)
Theorem zero_batchSize_starves_queue fuel w :
  shuttingDown (batcher w) = false -> mu (batcher w) = false ->
  0 < frequency (batcher w) -> batchSize (batcher w) = 0 ->
  fuel <> O ->
  exists w',
    Start_loop fuel w = Done Next w' /\
    jobs (batcher w') = jobs (batcher w) /\
    dispatch_log w' = dispatch_log w /\
    goroutines w' = goroutines w /\
    tick_ready (ticker (batcher w')) = false /\
    startTicker_iter w' = Blocked.
Proof.
  intros Hsd Hmu Hf Hn Hfuel.
  destruct (Start_loop_zero fuel w Hsd Hmu Hf Hn)
    as (w' & HL & Hj & Hd & Hg & _ & _ & _ & Ht).
  specialize (Ht Hfuel). exists w'. do 4 (split; [done|]).
  assert (Hc : countdown (ticker (batcher w')) <> 0) by (rewrite Ht; simpl; lia).
  split; [unfold tick_ready; by apply Z.eqb_neq|].
  by apply startTicker_iter_waits.
Qed.

(** ** Construction *)

(** X9: [NewBatcher] fails exactly when the frequency is not positive,
    whatever the processor and the batch size. When it succeeds, the batcher
    is open and its queue empty, the first submission is admitted, and no
    timer flush happens before the frequency has elapsed. *)
Theorem NewBatcher_fails_iff_frequency_nonpositive (p : A -> B) f n :
  (NewBatcher p f n = None <-> f <= 0) /\
  (forall b,
     NewBatcher p f n = Some b ->
     shuttingDown b = false /\ jobs b = [] /\
     (forall job, exists jr w',
        AddJob job (init_world b) = Done (Some jr, None) w') /\
     (forall tr w,
        exec (init_world b) tr w ->
        Exists (fun a => is_ticker a = true) tr -> f <= elapsed tr)).
Proof.
  unfold NewBatcher, NewTicker. split.
  - destruct (Z.leb_spec f 0); split; (done || lia).
  - intros b Hnew. destruct (Z.leb_spec f 0); [done|].
    injection Hnew as <-. split; [done|]. split; [done|]. split.
    + intros job. eexists _, _. by apply AddJob_admitted.
    + intros tr w He Hex.
      assert (Hw : wf (init_world (mkBatcher p n f false [] (mkTicker f f) false)))
        by (apply wf_init_world; simpl; (done || lia)).
      apply (no_tick_before _ _ _ Hw He Hex).
Qed.

(** ** Submissions in a row *)

Lemma AddJobs_rejected js w :
  shuttingDown (batcher w) = true ->
  AddJobs js w = Done (replicate (length js) (None, Some SubmissionRejected)) w.
Proof.
  intros Hsd. induction js as [|j js IH]; [done|].
  simpl. unfold bind. rewrite AddJob_rejected by done. by rewrite IH.
Qed.

Lemma AddJobs_admitted js :
  forall w,
    shuttingDown (batcher w) = false -> mu (batcher w) = false ->
    exists w',
      AddJobs js w =
        Done (imap (fun i j =>
                      (Some (mkJobResult (Id j) None (length (chans w) + i)),
                       None)) js) w' /\
      jobs (batcher w') =
        jobs (batcher w) ++ entries_from (length (chans w)) js /\
      chans w' = chans w ++ replicate (length js) None /\
      goroutines w' = goroutines w /\ dispatch_log w' = dispatch_log w /\
      shuttingDown (batcher w') = false /\ mu (batcher w') = false.
Proof.
  induction js as [|j js IH]; intros w Hsd Hmu.
  - exists w. simpl. unfold entries_from. simpl. by rewrite !app_nil_r.
  - pose proof (AddJob_admitted j w Hsd Hmu) as HA.
    set (w1 := mkWorld _ _ _ _ _) in HA.
    destruct (IH w1) as (w' & HL & Hj & Hc & Hg & Hd & Hsd' & Hmu'); try done.
    simpl in Hj, Hc, Hg, Hd, HL. rewrite length_app in HL, Hj. simpl in HL, Hj.
    exists w'. split; [|split; [|split]].
    + simpl. unfold bind. rewrite HA, HL. unfold ret. f_equal.
      rewrite Nat.add_0_r. f_equal. apply imap_ext. intros i x _. simpl.
      do 3 f_equal. lia.
    + rewrite Hj, <- app_assoc. f_equal. unfold entries_from. simpl.
      rewrite Nat.add_0_r. f_equal. apply imap_ext. intros i x _. simpl.
      f_equal. lia.
    + rewrite Hc, <- app_assoc. done.
    + done.
Qed.

(** X10: submissions in a row, as in the loops of the tests. On an open
    batcher (the mutex being free) every job is admitted: the i-th call
    returns no error and a future with the job's [Id], no cached value and
    the channel [i] places after the last one of the store, and afterwards
    the queue is the old queue followed by the jobs in the order of the
    calls, each with its own new, empty channel. On a batcher that is
    shutting down every call is rejected and nothing changes. *)
Theorem AddJobs_appends_in_order js w :
  mu (batcher w) = false ->
  (shuttingDown (batcher w) = false ->
   exists w',
     AddJobs js w =
       Done (imap (fun i j =>
                     (Some (mkJobResult (Id j) None (length (chans w) + i)),
                      None)) js) w' /\
     jobs (batcher w') =
       jobs (batcher w) ++ entries_from (length (chans w)) js /\
     job <$> entries_from (length (chans w)) js = js /\
     retCh <$> entries_from (length (chans w)) js =
       seq (length (chans w)) (length js) /\
     chans w' = chans w ++ replicate (length js) None /\
     goroutines w' = goroutines w /\ dispatch_log w' = dispatch_log w) /\
  (shuttingDown (batcher w) = true ->
   AddJobs js w =
     Done (replicate (length js) (None, Some SubmissionRejected)) w).
Proof.
  intros Hmu. split; [|by apply AddJobs_rejected].
  intros Hsd.
  destruct (AddJobs_admitted js w Hsd Hmu) as (w' & HL & Hj & Hc & Hg & Hd & _).
  exists w'. do 2 (split; [done|]). split; [|split; [|done]].
  - unfold entries_from. apply list_eq. intros i.
    rewrite list_lookup_fmap, list_lookup_imap.
    by destruct (js !! i).
  - unfold entries_from. apply list_eq. intros i.
    rewrite list_lookup_fmap, list_lookup_imap.
    destruct (js !! i) as [j|] eqn:Hi; simpl.
    + symmetry. apply lookup_seq. split; [done|]. by eapply lookup_lt_Some.
    + symmetry. apply lookup_ge_None. rewrite length_seq.
      by apply lookup_ge_None in Hi.
Qed.

(** ** Reading futures *)

(** X11: reading two futures with different channels gives the same values,
    futures and world in either order, and blocks in one order exactly when
    it blocks in the other. *)
Theorem Get_commutes jr1 jr2 w :
  ch jr1 <> ch jr2 ->
  bind (Get jr1) (fun r1 => bind (Get jr2) (fun r2 => ret (r1, r2))) w =
  bind (Get jr2) (fun r2 => bind (Get jr1) (fun r1 => ret (r1, r2))) w.
Proof.
  intros Hne. unfold Get, bind, recv, ret.
  destruct (data jr1) as [v1|], (data jr2) as [v2|]; simpl.
  - done.
  - by destruct (chans w !! ch jr2) as [[v|]|].
  - by destruct (chans w !! ch jr1) as [[v|]|].
  - destruct (chans w !! ch jr1) as [[v1|]|] eqn:H1;
      destruct (chans w !! ch jr2) as [[v2|]|] eqn:H2; simpl;
      rewrite ?list_lookup_insert_ne by done; rewrite ?H1, ?H2; try done.
    unfold with_chans. simpl. by rewrite list_insert_insert_ne.
Qed.

(** ** Dispatch *)

(** X13: [processBatch] starts exactly one invocation per job of the batch,
    in batch order and after those started before; it neither blocks nor
    panics and touches neither the batcher nor a channel. Dispatching a
    batch in two parts gives the same world as dispatching it whole. *)
Theorem processBatch_splits (b1 b2 : list (batchJob A)) w :
  processBatch (b1 ++ b2) w =
    bind (processBatch b1) (fun _ => processBatch b2) w /\
  exists w',
    processBatch (b1 ++ b2) w = Done tt w' /\
    goroutines w' = goroutines w ++ b1 ++ b2 /\
    dispatch_log w' = dispatch_log w ++ b1 ++ b2 /\
    length (goroutines w') =
      (length (goroutines w) + length b1 + length b2)%nat /\
    batcher w' = batcher w /\ chans w' = chans w /\ loop w' = loop w.
Proof.
  split.
  - unfold bind. rewrite !processBatch_eq. simpl. by rewrite <- !app_assoc.
  - eexists. split; [apply processBatch_eq|]. simpl.
    repeat split. rewrite !length_app. lia.
Qed.

(** ** The program of [example/main.go] *)

Lemma step_AddJob_inv w job r w' :
  step w (ActAddJob job r) w' -> AddJob job w = Done r w'.
Proof. intros Hs. by inversion Hs. Qed.

Lemma step_Get_inv w jr v jr' w' :
  step w (ActGet jr v jr') w' -> Get jr w = Done (v, jr') w'.
Proof. intros Hs. by inversion Hs. Qed.

(** An execution up to its next call from a user. *)
Lemma exec_call w tr w' a rest :
  exec w tr w' -> client_calls tr = a :: rest ->
  exists pre post wa wb,
    exec w pre wa /\ client_calls pre = [] /\ step wa a wb /\
    exec wb post w' /\ client_calls post = rest.
Proof.
  intros He. induction He as [|w a0 w1 tr w2 Hs He IH]; intros Hc; [done|].
  simpl in Hc. destruct (is_client a0) eqn:Ha.
  - injection Hc as -> Hc. exists [], tr, w, w1.
    split; [apply exec_nil|]. by repeat split.
  - destruct (IH Hc) as (pre & post & wa & wb & H1 & H2 & H3 & H4 & H5).
    exists (a0 :: pre), post, wa, wb. split; [by apply (exec_cons _ _ w1)|].
    simpl. rewrite Ha. by repeat split.
Qed.

(** What the engine does by itself between two calls: it keeps the invariant
    and the flag, it makes no channel, and a job on its way stays so. *)
Lemma exec_engine p bj w tr w' :
  wf w -> exec w tr w' -> client_calls tr = [] ->
  wf w' /\
  shuttingDown (batcher w') = shuttingDown (batcher w) /\
  length (chans w') = length (chans w) /\
  (tracks p bj w -> tracks p bj w').
Proof.
  intros Hw He. induction He as [|w a w1 tr w2 Hs He IH]; intros Hc; [done|].
  simpl in Hc. destruct (is_client a) eqn:Ha; [done|].
  destruct (IH (step_wf _ _ _ Hw Hs) Hc) as (Hw2 & Hsd & Hlen & Ht).
  split; [done|]. split; [|split].
  - rewrite Hsd. clear -Hs Ha. destruct Hs as
      [w job r w' _ H|w w' _ H|w c w' Hl H|w msg Hl H|w w' _ H
      |w gs1 bj gs2 w' _ Hgs H|w jr v jr' w' _ H|w dt _ Hdt]; try done.
    + apply Start_iter_Done in H. by destruct H.
    + by apply startTicker_iter_Done in H as (_ & _ & ->).
    + by apply processJob_Done in H as (_ & ->).
  - rewrite Hlen. clear -Hs Ha. destruct Hs as
      [w job r w' _ H|w w' _ H|w c w' Hl H|w msg Hl H|w w' _ H
      |w gs1 bj gs2 w' _ Hgs H|w jr v jr' w' _ H|w dt _ Hdt]; try done.
    + apply Start_iter_Done in H. by destruct H.
    + by apply startTicker_iter_Done in H as (_ & _ & ->).
    + apply processJob_Done in H as (_ & ->). simpl. by rewrite length_insert.
  - intros Ht0. apply Ht. apply (step_tracks p bj w a); try done.
    by destruct a.
Qed.

(** [Get] on the future of a job on its way returns the job's result. *)
Lemma tracks_Get p bj w jr v jr' w' :
  wf w -> tracks p bj w -> data jr = None -> ch jr = retCh bj ->
  Get jr w = Done (v, jr') w' -> v = p (Data (job bj)).
Proof.
  intros Hw [_ Ht] Hd Hch HG.
  apply Get_Done in HG as [(Hd' & _)|(_ & Hc & _)]; [congruence|].
  rewrite Hch in Hc. destruct Ht as [Hin|Hfull]; [|congruence].
  apply (wf_empty _ Hw) in Hin. congruence.
Qed.

(** An admitted job is on its way. *)
Lemma AddJob_tracks job w jr w' :
  wf w -> AddJob job w = Done (Some jr, None) w' ->
  shuttingDown (batcher w) = false /\
  jr = mkJobResult (Id job) None (length (chans w)) /\
  wf w' /\ length (chans w') = S (length (chans w)) /\
  shuttingDown (batcher w') = false /\
  tracks (processor (batcher w)) (mkBatchJob job (length (chans w))) w'.
Proof.
  intros Hw H.
  apply AddJob_Done in H as [(_ & [=] & _)|(Hsd & _ & [= ->] & ->)].
  split; [done|]. split; [done|]. split; [by apply wf_AddJob|].
  split; [simpl; rewrite length_app; simpl; lia|]. split; [done|].
  split; [done|]. left. unfold pending. simpl.
  rewrite !elem_of_app, list_elem_of_singleton. auto.
Qed.

(** X12: the program of [example/main.go], for any processor, frequency and
    payloads. In every execution of the engine in which the calls of [main]
    come in its order, [resA.Get()] returns the processor's output for the
    first payload and [resB.Get()] that for the second; its two submissions
    never return an error, so it does not panic; and it can run to its end:
    there is an execution with exactly its calls after which the loop of
    [Start] has returned and the queue is empty. *)
Theorem main_gets_processor_outputs (p : A -> B) f b (jobA jobB : Job A) :
  NewBatcher p f 2 = Some b ->
  (forall tr w resA resB strA strB resA' resB',
     exec (init_world b) tr w ->
     client_calls tr = main_calls jobA jobB resA resB strA strB resA' resB' ->
     strA = p (Data jobA) /\ strB = p (Data jobB)) /\
  (forall tr w rA rB rest,
     exec (init_world b) tr w ->
     client_calls tr = ActAddJob jobA rA :: ActAddJob jobB rB :: rest ->
     rA.2 = None /\ rB.2 = None) /\
  (exists tr w resA resB resA' resB',
     exec (init_world b) tr w /\
     client_calls tr =
       main_calls jobA jobB resA resB (p (Data jobA)) (p (Data jobB))
         resA' resB' /\
     loop w = Returned /\ jobs (batcher w) = []).
Proof.
  intros Hnew. pose proof (wf_NewBatcher _ _ _ _ Hnew) as Hw0.
  unfold NewBatcher, NewTicker in Hnew.
  destruct (Z.leb_spec f 0) as [|Hf]; [done|]. injection Hnew as <-.
  set (b := mkBatcher p 2 f false [] (mkTicker f f) false) in *.
  split; [|split].
  - intros tr w resA resB strA strB resA' resB' He Hc. unfold main_calls in Hc.
    destruct (exec_call _ _ _ _ _ He Hc)
      as (pre0 & post0 & wa0 & wb0 & He0 & Hp0 & Hs0 & He1 & Hc1).
    destruct (exec_call _ _ _ _ _ He1 Hc1)
      as (pre1 & post1 & wa1 & wb1 & He1' & Hp1 & Hs1 & He2 & Hc2).
    destruct (exec_call _ _ _ _ _ He2 Hc2)
      as (pre2 & post2 & wa2 & wb2 & He2' & Hp2 & Hs2 & He3 & Hc3).
    destruct (exec_call _ _ _ _ _ He3 Hc3)
      as (pre3 & post3 & wa3 & wb3 & He3' & Hp3 & Hs3 & _ & _).
    set (bjA := mkBatchJob jobA (length (chans wa0))).
    set (bjB := mkBatchJob jobB (length (chans wa1))).
    destruct (exec_engine p bjA _ _ _ Hw0 He0 Hp0) as (Hwa0 & Hsd0 & _ & _).
    destruct (exec_config _ _ _ He0) as (Hpa0 & _). simpl in Hpa0.
    pose proof (step_AddJob_inv _ _ _ _ Hs0) as HA.
    destruct (AddJob_tracks _ _ _ _ Hwa0 HA)
      as (_ & -> & Hwb0 & Hlb0 & Hsdb0 & HtA0).
    rewrite Hpa0 in HtA0. fold bjA in HtA0.
    destruct (exec_engine p bjA _ _ _ Hwb0 He1' Hp1)
      as (Hwa1 & Hsd1 & Hl1 & HtA1).
    specialize (HtA1 HtA0).
    pose proof (step_AddJob_inv _ _ _ _ Hs1) as HB.
    destruct (AddJob_tracks _ _ _ _ Hwa1 HB)
      as (_ & -> & Hwb1 & Hlb1 & Hsdb1 & HtB1).
    assert (Hpa1 : processor (batcher wa1) = p) by apply HtA1.
    rewrite Hpa1 in HtB1. fold bjB in HtB1.
    assert (HtA1' : tracks p bjA wb1).
    { apply (step_tracks p bjA wa1 _ wb1 Hwa1 HtA1 Hs1). done. }
    destruct (exec_engine p bjA _ _ _ Hwb1 He2' Hp2) as (Hwa2 & _ & _ & HtA2).
    destruct (exec_engine p bjB _ _ _ Hwb1 He2' Hp2) as (_ & _ & _ & HtB2).
    specialize (HtA2 HtA1'). specialize (HtB2 HtB1).
    pose proof (step_Get_inv _ _ _ _ _ Hs2) as HGA.
    split.
    { exact (tracks_Get p bjA wa2
               (mkJobResult (Id jobA) None (length (chans wa0)))
               strA resA' wb2 Hwa2 HtA2 eq_refl eq_refl HGA). }
    assert (HtB2' : tracks p bjB wb2).
    { apply (step_tracks p bjB wa2 _ wb2 Hwa2 HtB2 Hs2). simpl.
      apply Nat.eqb_neq. lia. }
    pose proof (step_wf _ _ _ Hwa2 Hs2) as Hwb2.
    destruct (exec_engine p bjB _ _ _ Hwb2 He3' Hp3) as (Hwa3 & _ & _ & HtB3).
    specialize (HtB3 HtB2').
    pose proof (step_Get_inv _ _ _ _ _ Hs3) as HGB.
    exact (tracks_Get p bjB wa3
             (mkJobResult (Id jobB) None (length (chans wa1)))
             strB resB' wb3 Hwa3 HtB3 eq_refl eq_refl HGB).
  - intros tr w rA rB rest He Hc.
    destruct (exec_call _ _ _ _ _ He Hc)
      as (pre0 & post0 & wa0 & wb0 & He0 & Hp0 & Hs0 & He1 & Hc1).
    destruct (exec_call _ _ _ _ _ He1 Hc1)
      as (pre1 & post1 & wa1 & wb1 & He1' & Hp1 & Hs1 & _ & _).
    set (bjA := mkBatchJob jobA 0).
    destruct (exec_engine p bjA _ _ _ Hw0 He0 Hp0) as (Hwa0 & Hsd0 & _ & _).
    simpl in Hsd0.
    pose proof (step_AddJob_inv _ _ _ _ Hs0) as HA.
    apply AddJob_Done in HA as [(Hsd & _)|(_ & _ & -> & ->)]; [congruence|].
    split; [done|].
    assert (Hwb0 : wf (mkWorld
      (set_jobs (jobs (batcher wa0) ++ [mkBatchJob jobA (length (chans wa0))])
         (batcher wa0))
      (chans wa0 ++ [None]) (goroutines wa0) (dispatch_log wa0) (loop wa0)))
      by (by apply wf_AddJob).
    destruct (exec_engine p bjA _ _ _ Hwb0 He1' Hp1) as (Hwa1 & Hsd1 & _ & _).
    simpl in Hsd1.
    pose proof (step_AddJob_inv _ _ _ _ Hs1) as HB.
    apply AddJob_Done in HB as [(Hsd & _)|(_ & _ & -> & ->)]; [congruence|].
    done.
  - eexists _, _, _, _, _, _. split; [|split; [|split]].
    + eapply exec_cons.
      { apply step_AddJob; [reflexivity|]. apply AddJob_admitted; reflexivity. }
      simpl. eapply exec_cons.
      { apply step_AddJob; [reflexivity|]. apply AddJob_admitted; reflexivity. }
      simpl. eapply exec_cons.
      { eapply (step_Start _ Next); [reflexivity|].
        apply Start_iter_size; simpl; try reflexivity; unfold len; simpl; lia. }
      simpl. eapply exec_cons.
      { eapply (step_processJob _ [] _ [_]); [reflexivity|reflexivity|].
        apply processJob_eq. reflexivity. }
      simpl. eapply exec_cons.
      { eapply (step_processJob _ [] _ []); [reflexivity|reflexivity|].
        apply processJob_eq. reflexivity. }
      simpl. eapply exec_cons.
      { apply step_Get; [reflexivity|].
        apply (Get_received (mkJobResult (Id jobA) None 0)); reflexivity. }
      simpl. eapply exec_cons.
      { apply step_Get; [reflexivity|].
        apply (Get_received (mkJobResult (Id jobB) None 1)); reflexivity. }
      simpl. eapply exec_cons.
      { apply step_Shutdown; reflexivity. }
      simpl. eapply exec_cons.
      { eapply (step_Start _ Return); [reflexivity|].
        apply Start_iter_shutdown; reflexivity. }
      apply exec_nil.
    + reflexivity.
    + reflexivity.
    + reflexivity.
Qed.

End Further.

(** * Instances of the further properties *)

Lemma exec_size_0_6 :
  exec size_0
    ([ActAddJob job1 (Some (future 1 0), None);
      ActAddJob job2 (Some (future 2 1), None)] ++
     [ActStart Next; ActStart Next;
      ActProcessJob (mkBatchJob job1 0); ActProcessJob (mkBatchJob job2 1)])
    size_6.
Proof. exact (exec_app _ _ _ _ _ exec_size_2 exec_size_6). Defined.

Lemma exec_three_0_4 :
  exec three_0
    ([ActAddJob job1 (Some (future 1 0), None);
      ActAddJob job2 (Some (future 2 1), None);
      ActAddJob job3 (Some (future 3 2), None)] ++ [ActStart Next])
    three_4.
Proof. exact (exec_app _ _ _ _ _ exec_three_3 exec_three_4). Defined.

(** The batcher of [TestBatcherBatchSizeProcessesCorrectNumber]. *)
Lemma configuration_is_immutable_witness :
  NewBatcher uppercaseString FIVE_MINUTES 2 = Some (test_batcher FIVE_MINUTES 2) /\
  batchSize (batcher three_4) = 2 /\ frequency (batcher three_4) = FIVE_MINUTES.
Proof.
  split; [reflexivity|].
  destruct (configuration_is_immutable uppercaseString FIVE_MINUTES 2
              (test_batcher FIVE_MINUTES 2) _ three_4 eq_refl exec_three_0_4)
    as (_ & H2 & H3 & _).
  split; assumption.
Defined.

(** The results of [TestBatcherBatchSize]. *)
Lemma results_come_from_dispatched_jobs_witness :
  exists bj,
    bj ∈ dispatch_log size_6 /\ retCh bj = 1%nat /\
    "FOOBAR"%string = uppercaseString (Data (job bj)).
Proof.
  destruct (results_come_from_dispatched_jobs (test_batcher FIVE_MINUTES 1)
              _ size_6 exec_size_0_6) as (H & _).
  exact (H 1%nat "FOOBAR"%string eq_refl).
Defined.

Lemma channel_written_at_most_once_witness :
  wf size_1 /\
  (writes_to 0
     [ActAddJob job2 (Some (future 2 1), None); ActStart Next; ActStart Next;
      ActProcessJob (mkBatchJob job1 0); ActProcessJob (mkBatchJob job2 1)]
   <= 1)%nat.
Proof.
  split; [exact wf_size_1|].
  refine (proj1 (channel_written_at_most_once 0 size_1 _ size_6 wf_size_1 _)).
  eapply exec_cons; [concrete_step|exact exec_size_6].
Defined.

(** The goroutines of [TestBatcherBatchSizeProcessesCorrectNumber]. *)
Lemma started_invocations_never_block_witness :
  mkBatchJob job1 0 ∈ goroutines three_4 /\
  exists w' : World string string,
    processJob (mkBatchJob job1 0) three_4 = Done tt w' /\
    chans w' !! 0%nat = Some (Some "HELLO WORLD"%string).
Proof.
  assert (Hin : mkBatchJob job1 0 ∈ goroutines three_4)
    by (change (goroutines three_4)
          with [mkBatchJob job1 0%nat; mkBatchJob job2 1%nat];
        apply list_elem_of_here).
  split; [exact Hin|].
  destruct (started_invocations_never_block uppercaseString FIVE_MINUTES 2
              (test_batcher FIVE_MINUTES 2) _ three_4 (mkBatchJob job1 0)
              eq_refl exec_three_0_4 Hin) as (w' & H1 & H2 & _).
  exists w'. split; [exact H1|exact H2].
Defined.

(** The loop of [Start] alone on the three jobs of
    [TestBatcherBatchSizeProcessesCorrectNumber]: one job is left. *)
Lemma Start_loop_flushes_whole_batches_witness :
  exists w',
    Start_loop 5 three_3 = Done Next w' /\
    length (jobs (batcher w')) = 1%nat.
Proof.
  assert (Hfuel : (length (jobs (batcher three_3)) /
                   Z.to_nat (batchSize (batcher three_3)) <= 5)%nat)
    by (vm_compute; repeat constructor).
  destruct (Start_loop_flushes_whole_batches 5 three_3
              eq_refl eq_refl eq_refl eq_refl Hfuel)
    as (w' & H1 & _ & H3 & _).
  exists w'. split; [exact H1|exact H3].
Defined.

Lemma zero_batchSize_starves_queue_witness :
  batchSize (batcher zero_1) = 0 /\
  exists w',
    Start_loop 3 zero_1 = Done Next w' /\
    jobs (batcher w') = [mkBatchJob job1 0%nat] /\
    startTicker_iter w' = Blocked.
Proof.
  split; [reflexivity|].
  destruct (zero_batchSize_starves_queue 3 zero_1
              eq_refl eq_refl eq_refl eq_refl ltac:(discriminate))
    as (w' & H1 & H2 & _ & _ & _ & H6).
  exists w'. split; [exact H1|]. split; [exact H2|exact H6].
Defined.

Lemma NewBatcher_fails_iff_frequency_nonpositive_witness :
  NewBatcher uppercaseString 0 10 = None.
Proof.
  apply (proj1 (NewBatcher_fails_iff_frequency_nonpositive uppercaseString 0 10)).
  discriminate.
Defined.

(** The loop of [TestBatcherBatchSizeProcessesCorrectNumber]. *)
Lemma AddJobs_appends_in_order_witness :
  mu (batcher three_0) = false /\
  exists w' : World string string,
    jobs (batcher w') =
      [mkBatchJob job1 0%nat; mkBatchJob job2 1%nat; mkBatchJob job3 2%nat] /\
    chans w' = [None; None; None].
Proof.
  split; [reflexivity|].
  destruct (AddJobs_appends_in_order [job1; job2; job3] three_0 eq_refl)
    as (H & _).
  destruct (H eq_refl) as (w' & _ & H2 & _ & _ & H5 & _).
  exists w'. split; [exact H2|exact H5].
Defined.

Lemma Get_commutes_witness :
  bind (Get (future 1 0)) (fun r1 => bind (Get (future 2 1)) (fun r2 => ret (r1, r2)))
    size_6 =
  bind (Get (future 2 1)) (fun r2 => bind (Get (future 1 0)) (fun r1 => ret (r1, r2)))
    size_6.
Proof.
  apply (Get_commutes (future 1 0) (future 2 1) size_6). discriminate.
Defined.

(** [main] of [example/main.go] prints INPUT and ANOTHER INPUT. *)
Lemma main_gets_processor_outputs_witness :
  NewBatcher uppercaseString FIVE_SECONDS 2 =
    Some (test_batcher FIVE_SECONDS 2) /\
  exists tr w resA resB resA' resB',
    exec (init_world (test_batcher FIVE_SECONDS 2)) tr w /\
    client_calls tr =
      main_calls main_jobA main_jobB resA resB
        "INPUT"%string "ANOTHER INPUT"%string resA' resB' /\
    loop w = Returned /\ jobs (batcher w) = [].
Proof.
  split; [reflexivity|].
  exact (proj2 (proj2 (main_gets_processor_outputs uppercaseString FIVE_SECONDS
                         (test_batcher FIVE_SECONDS 2) main_jobA main_jobB
                         eq_refl))).
Defined.

Lemma processBatch_splits_witness :
  processBatch ([mkBatchJob job1 0%nat] ++ [mkBatchJob job2 1%nat]) size_2 =
  bind (processBatch [mkBatchJob job1 0%nat])
    (fun _ => processBatch [mkBatchJob job2 1%nat]) size_2.
Proof.
  exact (proj1 (processBatch_splits [mkBatchJob job1 0%nat]
                  [mkBatchJob job2 1%nat] size_2)).
Defined.


(** * The engine at the grain of its lock *)

Section Lock_grain.

Context {A B : Type}.

Implicit Types (w : World A B) (fw : FWorld (A:=A) (B:=B)) (bj : batchJob A)
  (job : Job A) (jr : JobResult B) (tr : list (faction (A:=A) (B:=B))).

(** ** The pieces make up the methods *)

Lemma AddJob_split job w :
  AddJob job w =
  bind AddJob_enter
    (fun r =>
       match r with
       | None => ret (None, Some SubmissionRejected)
       | Some c => AddJob_append (mkBatchJob job c)
       end) w.
Proof.
  unfold AddJob, AddJob_enter, AddJob_append, bind, read, make_chan, ret.
  by destruct (shuttingDown (batcher w)).
Qed.

Lemma Start_iter_split w :
  Start_iter w =
  bind (read shuttingDown)
    (fun sd : bool =>
       if sd then Start_case_shutdown
       else bind Start_guard
              (fun g : bool => if g then Start_case_size else ret Next)) w.
Proof.
  destruct w as [[p n f sd js t m] cs gs lg l].
  unfold Start_iter, Start_case_shutdown, Start_guard, Start_case_size,
    bind, read, ret. simpl.
  destruct sd; [done|]. simpl.
  destruct (n <=? len js); [|done]. unfold Lock. simpl.
  destruct m; [done|]. simpl. reflexivity.
Qed.

Lemma startTicker_iter_split w :
  startTicker_iter w = bind recv_tick (fun _ => startTicker_flush) w.
Proof. reflexivity. Qed.

(** ** What each piece does *)

Lemma AddJob_enter_Done w r w' :
  AddJob_enter w = Done r w' ->
  (shuttingDown (batcher w) = true /\ r = None /\ w' = w) \/
  (shuttingDown (batcher w) = false /\ r = Some (length (chans w)) /\
   w' = with_chans (chans w ++ [None]) w).
Proof.
  unfold AddJob_enter, bind, read, make_chan, ret.
  destruct (shuttingDown (batcher w)); intros [= <- <-]; auto.
Qed.

Lemma AddJob_append_eq bj w :
  mu (batcher w) = false ->
  AddJob_append bj w =
  Done (Some (mkJobResult (Id (job bj)) None (retCh bj)), None)
    (mkWorld (set_jobs (jobs (batcher w) ++ [bj]) (batcher w))
       (chans w) (goroutines w) (dispatch_log w) (loop w)).
Proof.
  intros Hmu. destruct w as [[p n f sd js t m] cs gs lg l].
  simpl in *. subst. reflexivity.
Qed.

Lemma AddJob_append_Done bj w r w' :
  AddJob_append bj w = Done r w' ->
  mu (batcher w) = false /\
  r = (Some (mkJobResult (Id (job bj)) None (retCh bj)), None) /\
  w' = mkWorld (set_jobs (jobs (batcher w) ++ [bj]) (batcher w))
         (chans w) (goroutines w) (dispatch_log w) (loop w).
Proof.
  intros H. destruct (mu (batcher w)) eqn:Hmu.
  - unfold AddJob_append, bind, Lock in H. by rewrite Hmu in H.
  - rewrite AddJob_append_eq in H by done. by inversion H.
Qed.

Lemma Start_case_shutdown_eq w :
  mu (batcher w) = false ->
  Start_case_shutdown w =
  Done Return
    (mkWorld (set_jobs [] (batcher w)) (chans w)
       (goroutines w ++ jobs (batcher w))
       (dispatch_log w ++ jobs (batcher w)) (loop w)).
Proof.
  intros Hmu. destruct w as [[p n f sd js t m] cs gs lg l].
  simpl in *. subst. unfold Start_case_shutdown, bind, read, Lock. simpl.
  destruct js as [|bj js].
  - simpl. by rewrite !app_nil_r.
  - replace (0 <? len (bj :: js)) with true
      by (symmetry; apply Z.ltb_lt; unfold len; simpl; lia).
    unfold bind. rewrite processBatch_eq. reflexivity.
Qed.

Lemma Start_case_shutdown_Done w c w' :
  Start_case_shutdown w = Done c w' ->
  mu (batcher w) = false /\ c = Return /\
  w' = mkWorld (set_jobs [] (batcher w)) (chans w)
         (goroutines w ++ jobs (batcher w))
         (dispatch_log w ++ jobs (batcher w)) (loop w).
Proof.
  intros H. destruct (mu (batcher w)) eqn:Hmu.
  - unfold Start_case_shutdown, bind, Lock in H. by rewrite Hmu in H.
  - rewrite Start_case_shutdown_eq in H by done. by inversion H.
Qed.

Lemma Start_case_size_eq w :
  mu (batcher w) = false ->
  0 <= batchSize (batcher w) <= len (jobs (batcher w)) ->
  0 < frequency (batcher w) ->
  Start_case_size w =
  Done Next
    (mkWorld
       (set_ticker (mkTicker (frequency (batcher w)) (frequency (batcher w)))
          (set_jobs (drop (Z.to_nat (batchSize (batcher w))) (jobs (batcher w)))
             (batcher w)))
       (chans w)
       (goroutines w ++ take (Z.to_nat (batchSize (batcher w))) (jobs (batcher w)))
       (dispatch_log w ++ take (Z.to_nat (batchSize (batcher w))) (jobs (batcher w)))
       (loop w)).
Proof.
  intros Hmu Hn Hf. destruct w as [[p n f sd js t m] cs gs lg l].
  simpl in *. subst. unfold Start_case_size, bind, read, Lock. simpl.
  rewrite slice_prefix, slice_from_suffix by (simpl; lia).
  unfold write. simpl. rewrite processBatch_eq. simpl.
  unfold Reset, Ticker_Reset. simpl.
  destruct (Z.leb_spec f 0); [lia|]. reflexivity.
Qed.

(** The slice expression of the size case on a queue that is shorter than
    the batch size, or with a negative batch size. *)
Lemma Start_case_size_out_of_range w :
  mu (batcher w) = false ->
  batchSize (batcher w) < 0 \/ len (jobs (batcher w)) < batchSize (batcher w) ->
  Start_case_size w = Panic "slice bounds out of range".
Proof.
  intros Hmu Hn. destruct w as [[p n f sd js t m] cs gs lg l].
  simpl in *. subst. unfold Start_case_size, bind, read, Lock, slice. simpl.
  unfold len in Hn.
  destruct (Z.leb_spec 0 n); simpl; [|done].
  destruct (Z.leb_spec n (Z.of_nat (length js))); [lia|done].
Qed.

Lemma Start_case_size_bad_frequency w :
  mu (batcher w) = false ->
  0 <= batchSize (batcher w) <= len (jobs (batcher w)) ->
  frequency (batcher w) <= 0 ->
  Start_case_size w = Panic "non-positive interval for Ticker.Reset".
Proof.
  intros Hmu Hn Hf. destruct w as [[p n f sd js t m] cs gs lg l].
  simpl in *. subst. unfold Start_case_size, bind, read, Lock. simpl.
  rewrite slice_prefix, slice_from_suffix by (simpl; lia).
  unfold write. simpl. rewrite processBatch_eq. simpl.
  unfold Reset, Ticker_Reset. simpl.
  destruct (Z.leb_spec f 0); [|lia]. reflexivity.
Qed.

Lemma Start_case_size_Done w c w' :
  Start_case_size w = Done c w' ->
  mu (batcher w) = false /\
  0 <= batchSize (batcher w) <= len (jobs (batcher w)) /\
  0 < frequency (batcher w) /\ c = Next /\
  w' = mkWorld
         (set_ticker (mkTicker (frequency (batcher w)) (frequency (batcher w)))
            (set_jobs (drop (Z.to_nat (batchSize (batcher w))) (jobs (batcher w)))
               (batcher w)))
         (chans w)
         (goroutines w ++ take (Z.to_nat (batchSize (batcher w))) (jobs (batcher w)))
         (dispatch_log w ++ take (Z.to_nat (batchSize (batcher w))) (jobs (batcher w)))
         (loop w).
Proof.
  intros H. destruct (mu (batcher w)) eqn:Hmu.
  { unfold Start_case_size, bind, Lock in H. by rewrite Hmu in H. }
  destruct (Z.ltb_spec (batchSize (batcher w)) 0).
  { rewrite Start_case_size_out_of_range in H by auto. discriminate. }
  destruct (Z.ltb_spec (len (jobs (batcher w))) (batchSize (batcher w))).
  { rewrite Start_case_size_out_of_range in H by auto. discriminate. }
  destruct (Z.leb_spec (frequency (batcher w)) 0).
  { rewrite Start_case_size_bad_frequency in H by (done || lia). discriminate. }
  rewrite Start_case_size_eq in H by (done || lia). inversion H.
  repeat split; (done || lia).
Qed.

Lemma startTicker_flush_eq w :
  mu (batcher w) = false ->
  startTicker_flush w =
  Done tt
    (mkWorld (set_jobs [] (batcher w)) (chans w)
       (goroutines w ++ jobs (batcher w))
       (dispatch_log w ++ jobs (batcher w)) (loop w)).
Proof.
  intros Hmu. destruct w as [[p n f sd js t m] cs gs lg l].
  simpl in *. subst. unfold startTicker_flush, bind, read, Lock. simpl.
  rewrite processBatch_eq. reflexivity.
Qed.

Lemma startTicker_flush_Done w w' :
  startTicker_flush w = Done tt w' ->
  mu (batcher w) = false /\
  w' = mkWorld (set_jobs [] (batcher w)) (chans w)
         (goroutines w ++ jobs (batcher w))
         (dispatch_log w ++ jobs (batcher w)) (loop w).
Proof.
  intros H. destruct (mu (batcher w)) eqn:Hmu.
  - unfold startTicker_flush, bind, Lock in H. by rewrite Hmu in H.
  - rewrite startTicker_flush_eq in H by done. by inversion H.
Qed.

Lemma recv_tick_eq w :
  countdown (ticker (batcher w)) = 0 ->
  recv_tick w =
  Done tt
    (with_batcher
       (set_ticker (mkTicker (period (ticker (batcher w)))
                      (period (ticker (batcher w))))) w).
Proof.
  intros Hc. unfold recv_tick, Ticker_recv, tick_ready. by rewrite Hc.
Qed.

Lemma recv_tick_Done w w' :
  recv_tick w = Done tt w' ->
  countdown (ticker (batcher w)) = 0 /\
  w' = with_batcher
         (set_ticker (mkTicker (period (ticker (batcher w)))
                        (period (ticker (batcher w))))) w.
Proof.
  unfold recv_tick, Ticker_recv, tick_ready. intros H.
  destruct (Z.eqb_spec (countdown (ticker (batcher w))) 0); [|done].
  by inversion H.
Qed.

(** ** Steps of whole calls and iterations are steps at the grain of the lock *)

Lemma fexec_app fw tr1 fw1 tr2 fw2 :
  fexec fw tr1 fw1 -> fexec fw1 tr2 fw2 -> fexec fw (tr1 ++ tr2) fw2.
Proof. intros H1 H2. induction H1; simpl; eauto using fexec_cons. Qed.

Lemma fexec_one fw a fw' : fstep fw a fw' -> fexec fw [a] fw'.
Proof. intros H. eapply fexec_cons; [done|apply fexec_nil]. Qed.

(** A step of [step] is what the pieces do when nothing comes between an
    unlocked read and the locked part that follows it. *)
Lemma step_refines w a w' (ads : list (batchJob A)) :
  step w a w' ->
  exists ftr,
    fexec (mkFWorld w AtCase1 AwaitsTick ads) ftr
      (mkFWorld w' AtCase1 AwaitsTick ads).
Proof.
  intros Hs. destruct Hs as
    [w job r w' Hal H|w w' Hal H|w c w' Hl H|w msg Hl H|w w' Hal H
    |w gs1 bj gs2 w' Hal Hgs H|w jr v jr' w' Hal H|w dt Hal Hdt].
  - rewrite AddJob_split in H. unfold bind in H.
    destruct (AddJob_enter w) as [[c|] w1| |] eqn:He; try done.
    + assert (Hal1 : alive w1 = true).
      { by apply AddJob_enter_Done in He as [(_ & _ & ->)|(_ & _ & ->)]. }
      exists [FEnter job (Some c); FAppend (mkBatchJob job c) r].
      eapply fexec_cons; [by apply (fstep_Enter (mkFWorld w _ _ _))|].
      simpl. apply fexec_one.
      pose proof (fstep_Append
        (mkFWorld w1 AtCase1 AwaitsTick (ads ++ [mkBatchJob job c]))
        ads (mkBatchJob job c) [] r w' Hal1 eq_refl H) as Hs.
      by rewrite app_nil_r in Hs.
    + injection H as <- <-. exists [FEnter job None]. apply fexec_one.
      pose proof (fstep_Enter (mkFWorld w AtCase1 AwaitsTick ads)
                    job None w1 Hal He) as Hs.
      simpl in Hs. by rewrite app_nil_r in Hs.
  - exists [FShutdown]. apply fexec_one.
    by apply (fstep_Shutdown (mkFWorld w _ _ _)).
  - rewrite Start_iter_split in H. unfold bind, read in H.
    pose proof (fstep_Case1 (mkFWorld w AtCase1 AwaitsTick ads) Hl eq_refl)
      as Hs1. simpl in Hs1.
    destruct (shuttingDown (batcher w)) eqn:Hsd.
    + pose proof (Start_case_shutdown_Done _ _ _ H) as (_ & -> & _).
      exists [FCase1 true; FDrain]. eapply fexec_cons; [exact Hs1|].
      apply fexec_one. by apply (fstep_Drain (mkFWorld w _ _ _)).
    + unfold Start_guard, bind, read, ret in H.
      pose proof (fstep_Case2 (mkFWorld w AtCase2 AwaitsTick ads)
                    _ Hl eq_refl eq_refl) as Hs2. simpl in Hs2.
      destruct (batchSize (batcher w) <=? len (jobs (batcher w))).
      * pose proof (Start_case_size_Done _ _ _ H) as (_ & _ & _ & -> & _).
        exists [FCase1 false; FCase2 true; FSize].
        eapply fexec_cons; [exact Hs1|]. eapply fexec_cons; [exact Hs2|].
        apply fexec_one. by apply (fstep_Size (mkFWorld w _ _ _)).
      * injection H as <- <-. exists [FCase1 false; FCase2 false].
        eapply fexec_cons; [exact Hs1|]. by apply fexec_one.
  - rewrite Start_iter_split in H. unfold bind, read in H.
    pose proof (fstep_Case1 (mkFWorld w AtCase1 AwaitsTick ads) Hl eq_refl)
      as Hs1. simpl in Hs1.
    destruct (shuttingDown (batcher w)) eqn:Hsd.
    + destruct (mu (batcher w)) eqn:Hmu.
      * unfold Start_case_shutdown, bind, Lock in H. by rewrite Hmu in H.
      * by rewrite Start_case_shutdown_eq in H.
    + unfold Start_guard, bind, read, ret in H.
      pose proof (fstep_Case2 (mkFWorld w AtCase2 AwaitsTick ads)
                    _ Hl eq_refl eq_refl) as Hs2. simpl in Hs2.
      destruct (batchSize (batcher w) <=? len (jobs (batcher w))); [|done].
      exists [FCase1 false; FCase2 true; FSizePanic msg].
      eapply fexec_cons; [exact Hs1|]. eapply fexec_cons; [exact Hs2|].
      apply fexec_one. by apply (fstep_Size_panic (mkFWorld w _ _ _)).
  - rewrite startTicker_iter_split in H. unfold bind in H.
    destruct (recv_tick w) as [[] w1| |] eqn:Hr; try done.
    assert (Hal1 : alive w1 = true)
      by (by apply recv_tick_Done in Hr as (_ & ->)).
    exists [FTickRecv; FTickFlush].
    eapply fexec_cons; [by apply (fstep_TickRecv (mkFWorld w _ _ _))|].
    apply fexec_one. by apply (fstep_TickFlush (mkFWorld w1 _ _ _)).
  - exists [FProcessJob bj]. apply fexec_one.
    by apply (fstep_processJob (mkFWorld w _ _ _) gs1 bj gs2).
  - exists [FGet jr v jr']. apply fexec_one.
    by apply (fstep_Get (mkFWorld w _ _ _)).
  - exists [FElapse dt]. apply fexec_one.
    by apply (fstep_Elapse (mkFWorld w _ _ _)).
Qed.

Lemma exec_refines w (tr : list (action A B)) w' :
  exec w tr w' -> exists ftr, fexec (at_rest w) ftr (at_rest w').
Proof.
  intros He. induction He as [|w a w1 tr w2 Hs He (ftr2 & IH)].
  - exists []. apply fexec_nil.
  - destruct (step_refines w a w1 [] Hs) as (ftr1 & H1).
    exists (ftr1 ++ ftr2). by apply (fexec_app _ _ (at_rest w1)).
Qed.

(** ** The invariant at the grain of the lock *)

Lemma fwf_finit (p : A -> B) f n b :
  NewBatcher p f n = Some b -> fwf (finit b).
Proof.
  unfold NewBatcher, NewTicker. destruct (Z.leb_spec f 0); [done|].
  intros [= <-]. constructor; simpl; (done || lia).
Qed.

Lemma fstep_fwf fw a fw' : fwf fw -> fstep fw a fw' -> fwf fw'.
Proof.
  intros [Hmu Hf Hp Hc Hcase Hret] Hs. destruct Hs as
    [fw job r w' Hal H|fw a1 bj a2 r w' Hal Hads H|fw w' Hal H
    |fw Hl Hpc|fw taken Hl Hpc H|fw w' Hl Hpc H|fw w' Hl Hpc H
    |fw msg Hl Hpc H|fw w' Hal Hpc H|fw w' Hal Hpc H
    |fw gs1 bj gs2 w' Hal Hgs H|fw jr v jr' w' Hal H|fw dt Hal Hdt].
  - apply AddJob_enter_Done in H as [(_ & _ & ->)|(_ & _ & ->)];
      by constructor.
  - apply AddJob_append_Done in H as (_ & _ & ->). by constructor.
  - injection H as <-. by constructor.
  - constructor; simpl; try done.
    by destruct (shuttingDown (batcher (base fw))).
  - constructor; simpl; try done. by destruct taken.
  - apply Start_case_shutdown_Done in H as (_ & _ & ->).
    constructor; simpl; try done. intros _. by apply Hcase.
  - apply Start_case_size_Done in H as (_ & _ & _ & _ & ->).
    constructor; simpl; first [done | lia | by rewrite Hl].
  - by constructor.
  - apply recv_tick_Done in H as (_ & ->).
    constructor; simpl; first [done | lia].
  - apply startTicker_flush_Done in H as (_ & ->). by constructor.
  - apply processJob_Done in H as (_ & ->). by constructor.
  - apply Get_Done in H as [(_ & _ & ->)|(_ & _ & _ & ->)]; by constructor.
  - constructor; simpl; first [done | lia].
Qed.

Lemma fexec_fwf fw tr fw' : fwf fw -> fexec fw tr fw' -> fwf fw'.
Proof. intros Hw He. induction He; eauto using fstep_fwf. Qed.

(** What a step does to the queue, the dispatch log, the submissions under
    way, the store of channels and the flag. *)
Lemma fstep_summary fw a fw' :
  fstep fw a fw' ->
  exists batch rest,
    jobs (batcher (base fw)) = batch ++ rest /\
    jobs (batcher (base fw')) = rest ++ appended_by a /\
    dispatch_log (base fw') = dispatch_log (base fw) ++ batch /\
    adders fw ++ entered_by a ≡ₚ appended_by a ++ adders fw' /\
    seq 0 (length (chans (base fw))) ++ (retCh <$> entered_by a) =
      seq 0 (length (chans (base fw'))) /\
    shuttingDown (batcher (base fw')) =
      (shuttingDown (batcher (base fw)) ||
       match a with FShutdown => true | _ => false end) /\
    (forall job r,
       a = FEnter job r ->
       (r = None <-> shuttingDown (batcher (base fw)) = true)).
Proof.
  intros Hs.
  assert (Hstay : forall (a0 : faction (A:=A) (B:=B)) w1 pc lpc,
    jobs (batcher w1) = jobs (batcher (base fw)) ->
    dispatch_log w1 = dispatch_log (base fw) ->
    length (chans w1) = length (chans (base fw)) ->
    shuttingDown (batcher w1) = shuttingDown (batcher (base fw)) ->
    entered_by a0 = [] -> appended_by a0 = [] ->
    a0 <> FShutdown -> (forall job r, a0 <> FEnter job r) ->
    exists batch rest,
      jobs (batcher (base fw)) = batch ++ rest /\
      jobs (batcher (base (mkFWorld w1 pc lpc (adders fw)))) =
        rest ++ appended_by a0 /\
      dispatch_log (base (mkFWorld w1 pc lpc (adders fw))) =
        dispatch_log (base fw) ++ batch /\
      adders fw ++ entered_by a0 ≡ₚ
        appended_by a0 ++ adders (mkFWorld w1 pc lpc (adders fw)) /\
      seq 0 (length (chans (base fw))) ++ (retCh <$> entered_by a0) =
        seq 0 (length (chans (base (mkFWorld w1 pc lpc (adders fw))))) /\
      shuttingDown (batcher (base (mkFWorld w1 pc lpc (adders fw)))) =
        (shuttingDown (batcher (base fw)) ||
         match a0 with FShutdown => true | _ => false end) /\
      (forall job r,
         a0 = FEnter job r ->
         (r = None <-> shuttingDown (batcher (base fw)) = true))).
  { intros a0 w1 pc lpc Hj Hd Hc Hsd He Ha Hns Hne.
    exists [], (jobs (batcher (base fw))). simpl.
    rewrite He, Ha, Hj, Hd, Hc, Hsd, !app_nil_r. simpl.
    split_and!; try done.
    - by destruct a0; rewrite ?orb_false_r.
    - intros j r Ha0. by destruct (Hne j r). }
  destruct Hs as
    [fw job r w' Hal H|fw a1 bj a2 r w' Hal Hads H|fw w' Hal H
    |fw Hl Hpc|fw taken Hl Hpc H|fw w' Hl Hpc H|fw w' Hl Hpc H
    |fw msg Hl Hpc H|fw w' Hal Hpc H|fw w' Hal Hpc H
    |fw gs1 bj gs2 w' Hal Hgs H|fw jr v jr' w' Hal H|fw dt Hal Hdt].
  - exists [], (jobs (batcher (base fw))).
    apply AddJob_enter_Done in H as [(Hsd & -> & ->)|(Hsd & -> & ->)];
      simpl; rewrite ?app_nil_r, Hsd.
    + split_and!; try done. by intros j' r' [= _ <-].
    + rewrite length_app. simpl. rewrite seq_app. simpl.
      split_and!; try done. by intros j' r' [= _ <-].
  - exists [], (jobs (batcher (base fw))).
    apply AddJob_append_Done in H as (_ & _ & ->). simpl.
    rewrite Hads, !app_nil_r, orb_false_r. split_and!; try done.
    by rewrite Permutation_middle.
  - injection H as <-. exists [], (jobs (batcher (base fw))). simpl.
    rewrite !app_nil_r, orb_true_r. by split_and!.
  - by apply Hstay.
  - by apply Hstay.
  - apply Start_case_shutdown_Done in H as (_ & _ & ->).
    exists (jobs (batcher (base fw))), []. simpl.
    rewrite !app_nil_r, orb_false_r. by split_and!.
  - apply Start_case_size_Done in H as (_ & _ & _ & _ & ->).
    exists (take (Z.to_nat (batchSize (batcher (base fw))))
              (jobs (batcher (base fw)))),
      (drop (Z.to_nat (batchSize (batcher (base fw))))
         (jobs (batcher (base fw)))).
    simpl. rewrite take_drop, !app_nil_r, orb_false_r. by split_and!.
  - by apply Hstay.
  - apply recv_tick_Done in H as (_ & ->). by apply Hstay.
  - apply startTicker_flush_Done in H as (_ & ->).
    exists (jobs (batcher (base fw))), []. simpl.
    rewrite !app_nil_r, orb_false_r. by split_and!.
  - apply processJob_Done in H as (_ & ->). apply Hstay; try done.
    simpl. by rewrite length_insert.
  - apply Get_Done in H as [(_ & _ & ->)|(_ & _ & _ & ->)];
      apply Hstay; try done. simpl. by rewrite length_insert.
  - by apply Hstay.
Qed.

(** ** Time at the grain of the lock *)

Lemma fstep_felapsed_nonneg fw a fw' : fstep fw a fw' -> 0 <= felapsed_by a.
Proof. intros Hs. destruct Hs; simpl; lia. Qed.

Lemma fexec_felapsed_nonneg fw tr fw' : fexec fw tr fw' -> 0 <= felapsed tr.
Proof.
  intros He. induction He as [|fw a fw1 tr fw2 Hs He IH]; simpl; [lia|].
  apply fstep_felapsed_nonneg in Hs. lia.
Qed.

(** Apart from the listener's receive, a step lowers the countdown by the
    time that passes at most. *)
Lemma fstep_countdown fw a fw' :
  fwf fw -> fstep fw a fw' -> is_tick_recv a = false ->
  countdown (ticker (batcher (base fw))) <=
  countdown (ticker (batcher (base fw'))) + felapsed_by a.
Proof.
  intros Hw Hs Ha. destruct Hs as
    [fw job r w' Hal H|fw a1 bj a2 r w' Hal Hads H|fw w' Hal H
    |fw Hl Hpc|fw taken Hl Hpc H|fw w' Hl Hpc H|fw w' Hl Hpc H
    |fw msg Hl Hpc H|fw w' Hal Hpc H|fw w' Hal Hpc H
    |fw gs1 bj gs2 w' Hal Hgs H|fw jr v jr' w' Hal H|fw dt Hal Hdt]; simpl.
  - apply AddJob_enter_Done in H as [(_ & _ & ->)|(_ & _ & ->)]; simpl; lia.
  - apply AddJob_append_Done in H as (_ & _ & ->). simpl. lia.
  - injection H as <-. simpl. lia.
  - lia.
  - lia.
  - apply Start_case_shutdown_Done in H as (_ & _ & ->). simpl. lia.
  - apply Start_case_size_Done in H as (_ & _ & _ & _ & ->). simpl.
    destruct Hw. lia.
  - lia.
  - done.
  - apply startTicker_flush_Done in H as (_ & ->). simpl. lia.
  - apply processJob_Done in H as (_ & ->). simpl. lia.
  - apply Get_Done in H as [(_ & _ & ->)|(_ & _ & _ & ->)]; simpl; lia.
  - lia.
Qed.

(** The listener receives no tick before the countdown has elapsed. *)
Lemma no_recv_before fw tr fw' :
  fwf fw -> fexec fw tr fw' -> existsb is_tick_recv tr = true ->
  countdown (ticker (batcher (base fw))) <= felapsed tr.
Proof.
  intros Hw He. induction He as [|fw a fw1 tr fw2 Hs He IH]; intros Hex.
  - done.
  - simpl in *. destruct (is_tick_recv a) eqn:Ha.
    + destruct a; try discriminate.
      inversion Hs as [| | | | | | | |fw0 w0 _ _ H| | | |]; subst.
      apply recv_tick_Done in H as (Hc & _).
      apply fexec_felapsed_nonneg in He. simpl. lia.
    + pose proof (fstep_countdown _ _ _ Hw Hs Ha).
      specialize (IH (fstep_fwf _ _ _ Hw Hs) Hex). lia.
Qed.

(** A listener that awaits the tick flushes only after it has received
    one. *)
Lemma flush_needs_recv fw tr fw' :
  fexec fw tr fw' -> listener_at fw = AwaitsTick ->
  existsb is_tick_flush tr = true -> existsb is_tick_recv tr = true.
Proof.
  intros He. induction He as [|fw a fw1 tr fw2 Hs He IH]; intros Hl Hex.
  - done.
  - destruct Hs; simpl in *; first [done | congruence | by apply IH].
Qed.

Lemma flushes_app tr1 tr2 :
  flushes (tr1 ++ tr2) = (flushes tr1 + flushes tr2)%nat.
Proof.
  induction tr1 as [|a tr1 IH]; simpl; [done|].
  destruct (is_tick_flush a); simpl; by rewrite IH.
Qed.

(** ** The queue at the grain of the lock *)

(** The dispatch log followed by the queue is what was there followed by the
    entries in the order of their appends. *)
Lemma fexec_queue fw tr fw' :
  fexec fw tr fw' ->
  dispatch_log (base fw') ++ jobs (batcher (base fw')) =
  dispatch_log (base fw) ++ jobs (batcher (base fw)) ++ appended tr.
Proof.
  intros He. induction He as [|fw a fw1 tr fw2 Hs He IH].
  - unfold appended. simpl. by rewrite app_nil_r.
  - destruct (fstep_summary _ _ _ Hs)
      as (batch & rest & Hj & Hj' & Hd & _).
    rewrite IH, Hd, Hj', Hj. unfold appended. simpl.
    by rewrite <- !app_assoc.
Qed.

(** Every entry that is dispatched, queued or about to be appended has the
    channel of a call of its own. *)
Lemma fstep_channels fw a fw' :
  fstep fw a fw' ->
  retCh <$> (dispatch_log (base fw) ++ jobs (batcher (base fw)) ++ adders fw)
    ≡ₚ seq 0 (length (chans (base fw))) ->
  retCh <$> (dispatch_log (base fw') ++ jobs (batcher (base fw')) ++ adders fw')
    ≡ₚ seq 0 (length (chans (base fw'))).
Proof.
  intros Hs Hq. destruct (fstep_summary _ _ _ Hs)
    as (batch & rest & Hj & Hj' & Hd & Ha & Hc & _).
  rewrite <- Hc, <- Hq, <- fmap_app. apply fmap_Permutation.
  rewrite Hd, Hj', Hj, <- !app_assoc.
  do 3 apply Permutation_app_head. by symmetry.
Qed.

Lemma fexec_channels fw tr fw' :
  fexec fw tr fw' ->
  retCh <$> (dispatch_log (base fw) ++ jobs (batcher (base fw)) ++ adders fw)
    ≡ₚ seq 0 (length (chans (base fw))) ->
  retCh <$> (dispatch_log (base fw') ++ jobs (batcher (base fw')) ++ adders fw')
    ≡ₚ seq 0 (length (chans (base fw'))).
Proof. intros He. induction He; eauto using fstep_channels. Qed.

(** Channels are numbered in the order in which the calls pass the check. *)
Lemma fexec_entered fw tr fw' :
  fexec fw tr fw' ->
  seq 0 (length (chans (base fw))) ++ (retCh <$> concat (map entered_by tr)) =
  seq 0 (length (chans (base fw'))).
Proof.
  intros He. induction He as [|fw a fw1 tr fw2 Hs He IH].
  - simpl. by rewrite app_nil_r.
  - destruct (fstep_summary _ _ _ Hs) as (_ & _ & _ & _ & _ & _ & Hc & _).
    simpl. by rewrite fmap_app, app_assoc, Hc.
Qed.

(** ** After [Shutdown] *)

Lemma fstep_after_Shutdown fw a fw' :
  shuttingDown (batcher (base fw)) = true -> fstep fw a fw' ->
  shuttingDown (batcher (base fw')) = true /\
  (forall job r, a = FEnter job r -> r = None) /\
  length (chans (base fw')) = length (chans (base fw)) /\
  (forall bj, bj ∈ appended_by a -> bj ∈ adders fw) /\
  (forall bj, bj ∈ adders fw' -> bj ∈ adders fw) /\
  exists out,
    dispatch_log (base fw') = dispatch_log (base fw) ++ out /\
    out ++ jobs (batcher (base fw')) ++ adders fw' ≡ₚ
      jobs (batcher (base fw)) ++ adders fw /\
    (adders fw = [] ->
     adders fw' = [] /\
     jobs (batcher (base fw)) = out ++ jobs (batcher (base fw'))).
Proof.
  intros Hsd Hs. destruct (fstep_summary _ _ _ Hs)
    as (batch & rest & Hj & Hj' & Hd & Ha & Hc & Hsd' & Hen).
  assert (He : entered_by a = []).
  { destruct a as [j r|bj r| |t|t| | |msg| | |bj|jr v jr'|dt]; try done.
    destruct r as [c|]; [|done].
    by pose proof (proj2 (Hen _ _ eq_refl) Hsd). }
  rewrite He in Ha, Hc. simpl in Hc. rewrite app_nil_r in Ha, Hc.
  split_and!.
  - by rewrite Hsd', Hsd.
  - intros j r Ha0. by apply (Hen j r Ha0).
  - apply (f_equal length) in Hc. by rewrite !length_seq in Hc.
  - intros bj Hbj. rewrite Ha. apply elem_of_app. by left.
  - intros bj Hbj. rewrite Ha. apply elem_of_app. by right.
  - exists batch. split_and!; [done| |].
    + rewrite Hj', Hj, Ha, <- !app_assoc. done.
    + intros Hnil. rewrite Hnil in Ha. symmetry in Ha.
      apply Permutation_nil_r in Ha. apply app_eq_nil in Ha as [Ha1 Ha2].
      split; [done|]. by rewrite Hj', Hj, Ha1, app_nil_r.
Qed.

Lemma fexec_after_Shutdown fw tr fw' :
  shuttingDown (batcher (base fw)) = true -> fexec fw tr fw' ->
  shuttingDown (batcher (base fw')) = true /\
  (forall job r, FEnter job r ∈ tr -> r = None) /\
  length (chans (base fw')) = length (chans (base fw)) /\
  (forall bj, bj ∈ appended tr -> bj ∈ adders fw) /\
  (forall bj, bj ∈ adders fw' -> bj ∈ adders fw) /\
  exists out,
    dispatch_log (base fw') = dispatch_log (base fw) ++ out /\
    out ++ jobs (batcher (base fw')) ++ adders fw' ≡ₚ
      jobs (batcher (base fw)) ++ adders fw /\
    (adders fw = [] ->
     adders fw' = [] /\
     jobs (batcher (base fw)) = out ++ jobs (batcher (base fw'))).
Proof.
  intros Hsd He. induction He as [|fw a fw1 tr fw2 Hs He IH].
  - split_and!; try done.
    + intros j r Hin. by apply elem_of_nil in Hin.
    + intros bj Hin. by apply elem_of_nil in Hin.
    + exists []. simpl. by rewrite app_nil_r.
  - destruct (fstep_after_Shutdown _ _ _ Hsd Hs)
      as (Hsd1 & Hen1 & Hc1 & Hap1 & Had1 & out1 & Hd1 & Hp1 & Hn1).
    destruct (IH Hsd1)
      as (Hsd2 & Hen2 & Hc2 & Hap2 & Had2 & out2 & Hd2 & Hp2 & Hn2).
    split_and!.
    + done.
    + intros j r Hin. apply elem_of_cons in Hin as [Heq|Hin].
      * by apply (Hen1 j r).
      * by apply (Hen2 j r).
    + by rewrite Hc2.
    + intros bj Hin. unfold appended in Hin. simpl in Hin.
      apply elem_of_app in Hin as [Hin|Hin]; [by apply Hap1|].
      by apply Had1, Hap2.
    + intros bj Hin. by apply Had1, Had2.
    + exists (out1 ++ out2). split_and!.
      * by rewrite Hd2, Hd1, app_assoc.
      * by rewrite <- Hp1, <- Hp2, <- !app_assoc.
      * intros Hnil. destruct (Hn1 Hnil) as [Hnil1 Hj1].
        destruct (Hn2 Hnil1) as [Hnil2 Hj2].
        split; [done|]. by rewrite Hj1, Hj2, app_assoc.
Qed.

(** Once the loop of [Start] has returned it takes no step. *)
Lemma fstep_Returned fw a fw' :
  loop (base fw) = Returned -> fstep fw a fw' ->
  loop (base fw') = Returned /\ is_start_step a = false.
Proof.
  intros Hr Hs. destruct Hs as
    [fw job r w' Hal H|fw a1 bj a2 r w' Hal Hads H|fw w' Hal H
    |fw Hl Hpc|fw taken Hl Hpc H|fw w' Hl Hpc H|fw w' Hl Hpc H
    |fw msg Hl Hpc H|fw w' Hal Hpc H|fw w' Hal Hpc H
    |fw gs1 bj gs2 w' Hal Hgs H|fw jr v jr' w' Hal H|fw dt Hal Hdt];
    try congruence.
  - by apply AddJob_enter_Done in H as [(_ & _ & ->)|(_ & _ & ->)].
  - by apply AddJob_append_Done in H as (_ & _ & ->).
  - by injection H as <-.
  - by apply recv_tick_Done in H as (_ & ->).
  - by apply startTicker_flush_Done in H as (_ & ->).
  - by apply processJob_Done in H as (_ & ->).
  - by apply Get_Done in H as [(_ & _ & ->)|(_ & _ & _ & ->)].
  - done.
Qed.

Lemma fexec_Returned fw tr fw' :
  loop (base fw) = Returned -> fexec fw tr fw' ->
  loop (base fw') = Returned /\ existsb is_start_step tr = false.
Proof.
  intros Hr He. induction He as [|fw a fw1 tr fw2 Hs He IH]; [done|].
  destruct (fstep_Returned _ _ _ Hr Hs) as [Hr1 Ha].
  destruct (IH Hr1) as [Hr2 Htr]. simpl. by rewrite Ha, Htr.
Qed.

(** A loop that has panicked has ended the program. *)
Lemma panicked_is_stuck fw msg :
  loop (base fw) = Panicked msg -> forall a fw', ~ fstep fw a fw'.
Proof.
  intros Hl a fw' Hs.
  assert (Hal : alive (base fw) = false) by (unfold alive; by rewrite Hl).
  destruct Hs; congruence.
Qed.

(** ** The listener goes on *)

Lemma listener_flushes fw :
  fwf fw -> alive (base fw) = true ->
  exists tr fw',
    fexec fw tr fw' /\ flushes tr = 1%nat /\ loop (base fw') = loop (base fw).
Proof.
  intros Hw Hal. pose proof (fwf_mu _ Hw) as Hmu.
  pose proof (fwf_countdown _ Hw) as Hc.
  assert (Hflush : forall w pc ads,
    alive w = true -> mu (batcher w) = false ->
    exists fw',
      fstep (mkFWorld w pc HoldsTick ads) FTickFlush fw' /\
      loop (base fw') = loop w).
  { intros w pc ads Hal' Hmu'. eexists. split.
    - apply (fstep_TickFlush (mkFWorld w pc HoldsTick ads)); [done|done|].
      by apply startTicker_flush_eq.
    - done. }
  assert (Hrecv : forall w pc ads,
    alive w = true -> mu (batcher w) = false ->
    countdown (ticker (batcher w)) = 0 ->
    exists fw',
      fexec (mkFWorld w pc AwaitsTick ads) [FTickRecv; FTickFlush] fw' /\
      loop (base fw') = loop w).
  { intros w pc ads Hal' Hmu' Hc'.
    destruct (Hflush
      (with_batcher
         (set_ticker (mkTicker (period (ticker (batcher w)))
                        (period (ticker (batcher w))))) w) pc ads Hal' Hmu')
      as (fw' & Hs & Hl).
    exists fw'. split; [|done].
    eapply fexec_cons; [|by apply fexec_one].
    apply (fstep_TickRecv (mkFWorld w pc AwaitsTick ads)); [done|done|].
    by apply recv_tick_eq. }
  destruct fw as [w pc lpc ads]. simpl in *. destruct lpc.
  - destruct (Z.eq_dec (countdown (ticker (batcher w))) 0) as [Hz|Hnz].
    + destruct (Hrecv w pc ads Hal Hmu Hz) as (fw' & He & Hl).
      by exists [FTickRecv; FTickFlush], fw'.
    + destruct (Hrecv (elapse (countdown (ticker (batcher w))) w) pc ads)
        as (fw' & He & Hl); [done|done|simpl; lia|].
      exists [FElapse (countdown (ticker (batcher w))); FTickRecv; FTickFlush],
        fw'.
      split_and!; [|done|done].
      eapply fexec_cons; [|exact He].
      apply (fstep_Elapse (mkFWorld w pc AwaitsTick ads)); [done|simpl; lia].
  - destruct (Hflush w pc ads Hal Hmu) as (fw' & Hs & Hl).
    exists [FTickFlush], fw'. split_and!; [by apply fexec_one|done|done].
Qed.

Lemma listener_flushes_n n : forall fw,
  fwf fw -> alive (base fw) = true ->
  exists tr fw',
    fexec fw tr fw' /\ flushes tr = n /\ loop (base fw') = loop (base fw).
Proof.
  induction n as [|n IH]; intros fw Hw Hal.
  - exists [], fw. split_and!; [apply fexec_nil|done|done].
  - destruct (listener_flushes fw Hw Hal) as (tr1 & fw1 & He1 & Hf1 & Hl1).
    destruct (IH fw1) as (tr2 & fw2 & He2 & Hf2 & Hl2).
    { by apply (fexec_fwf fw tr1). }
    { unfold alive in *. by rewrite Hl1. }
    exists (tr1 ++ tr2), fw2. split_and!.
    + by apply (fexec_app _ _ fw1).
    + by rewrite flushes_app, Hf1, Hf2.
    + by rewrite Hl2.
Qed.

(** ** The claims that depend on the interleaving *)

(** C1, a defect of the code: an admitted job whose [Get] never returns.
    On a batcher made by [NewBatcher] with batch size 1 and any processor
    and frequency, after [go b.Start()] a job is submitted and admitted
    while [shuttingDown] is unset. The loop of [Start] finds the condition
    [len(b.jobs) >= b.batchSize] of its second case true (line 115); before
    it takes the lock (116) the period of the ticker passes and the listener
    of [startTicker] receives the tick and flushes the queue (143 to 147).
    The body of the case then slices the empty queue at the batch size (120)
    and panics: the loop of [Start] has ended with [slice bounds out of
    range], the invocation of [processJob] for the job was started and has
    not sent, the channel of the future is empty, [Get] on the future blocks
    and no goroutine takes another step. *)
Theorem Start_panics_after_racing_timer_flush (p : A -> B) f (j : Job A) b :
  NewBatcher p f 1 = Some b ->
  exists fw,
    fexec (finit b)
      [FEnter j (Some 0%nat);
       FAppend (mkBatchJob j 0) (Some (mkJobResult (Id j) None 0), None);
       FCase1 false; FCase2 true;
       FElapse f; FTickRecv; FTickFlush;
       FSizePanic "slice bounds out of range"%string] fw /\
    shuttingDown (batcher (base fw)) = false /\
    loop (base fw) = Panicked "slice bounds out of range"%string /\
    dispatch_log (base fw) = [mkBatchJob j 0] /\
    goroutines (base fw) = [mkBatchJob j 0] /\
    chans (base fw) = [None] /\
    Get (mkJobResult (Id j) None 0) (base fw) = Blocked /\
    (forall a fw', ~ fstep fw a fw').
Proof.
  unfold NewBatcher, NewTicker. destruct (Z.leb_spec f 0) as [|Hf]; [done|].
  intros [= <-].
  set (bj := mkBatchJob j 0%nat).
  set (b0 := mkBatcher p 1 f false [] (mkTicker f f) false).
  set (w1 := mkWorld b0 [None] [] [] Looping).
  set (w2 := mkWorld (set_jobs [bj] b0) [None] [] [] Looping).
  set (w3 := elapse f w2).
  set (w4 := with_batcher (set_ticker (mkTicker f f)) w3).
  set (w5 := mkWorld (set_jobs [] (batcher w4)) [None] [bj] [bj] Looping).
  exists (mkFWorld (with_loop (Panicked "slice bounds out of range") w5)
            AtCase1 AwaitsTick []).
  split.
  { eapply fexec_cons.
    { exact (fstep_Enter (finit b0) j (Some 0%nat) w1 eq_refl eq_refl). }
    eapply fexec_cons.
    { exact (fstep_Append (mkFWorld w1 AtCase1 AwaitsTick [bj]) [] bj [] _ w2
               eq_refl eq_refl eq_refl). }
    eapply fexec_cons.
    { exact (fstep_Case1 (mkFWorld w2 AtCase1 AwaitsTick []) eq_refl eq_refl). }
    eapply fexec_cons.
    { exact (fstep_Case2 (mkFWorld w2 AtCase2 AwaitsTick []) true
               eq_refl eq_refl eq_refl). }
    eapply fexec_cons.
    { apply (fstep_Elapse (mkFWorld w2 InCaseSize AwaitsTick []) f);
        [reflexivity|simpl; lia]. }
    eapply fexec_cons.
    { apply (fstep_TickRecv (mkFWorld w3 InCaseSize AwaitsTick []) w4);
        [reflexivity|reflexivity|].
      simpl. rewrite recv_tick_eq by (simpl; lia). reflexivity. }
    eapply fexec_cons.
    { exact (fstep_TickFlush (mkFWorld w4 InCaseSize HoldsTick []) w5
               eq_refl eq_refl (startTicker_flush_eq w4 eq_refl)). }
    apply fexec_one.
    exact (fstep_Size_panic (mkFWorld w5 InCaseSize AwaitsTick []) _
             eq_refl eq_refl eq_refl). }
  split_and!; try reflexivity.
  by apply (panicked_is_stuck _ "slice bounds out of range").
Qed.

(** C5, as amended: the size flush restarts the countdown of the ticker
    from the frequency. Right after it the ticker has its full period left,
    no tick is ready and a receive on the ticker blocks; whatever happens
    next, the listener receives no tick before the frequency has elapsed,
    and a listener that was awaiting the tick flushes nothing before then. A
    listener that had received its tick before the size flush still flushes
    the queue, right after the size flush if it comes to run, and leaves the
    ticker as the reset made it. The timer flush resets nothing: the flush
    leaves the ticker as it is, and the receive before it changes the ticker
    only by taking the tick. *)
Theorem size_flush_resets_ticker fw fw' :
  fwf fw -> fstep fw FSize fw' ->
  let f := frequency (batcher (base fw)) in
  ticker (batcher (base fw')) = mkTicker f f /\
  tick_ready (ticker (batcher (base fw'))) = false /\
  recv_tick (base fw') = Blocked /\
  (forall tr fw'',
     fexec fw' tr fw'' -> existsb is_tick_recv tr = true -> f <= felapsed tr) /\
  (listener_at fw = AwaitsTick ->
   forall tr fw'',
     fexec fw' tr fw'' -> existsb is_tick_flush tr = true -> f <= felapsed tr) /\
  (listener_at fw = HoldsTick ->
   exists fw'',
     fstep fw' FTickFlush fw'' /\
     dispatch_log (base fw'') =
       dispatch_log (base fw') ++ jobs (batcher (base fw')) /\
     jobs (batcher (base fw'')) = [] /\
     ticker (batcher (base fw'')) = mkTicker f f) /\
  (forall fw1 fw2,
     fstep fw1 FTickFlush fw2 ->
     ticker (batcher (base fw2)) = ticker (batcher (base fw1))) /\
  (forall fw1 fw2,
     fstep fw1 FTickRecv fw2 ->
     Ticker_recv (ticker (batcher (base fw1))) =
       Some (ticker (batcher (base fw2)))).
Proof.
  intros Hw Hs f. subst f. pose proof (fstep_fwf _ _ _ Hw Hs) as Hw'.
  pose proof (fwf_frequency _ Hw) as Hf.
  inversion Hs as [| | | | | |fw0 w' Hl Hpc H| | | | | |]; subst.
  apply Start_case_size_Done in H as (Hmu & Hn & _ & _ & ->).
  simpl in *.
  assert (Hnr : (frequency (batcher (base fw)) =? 0) = false)
    by (apply Z.eqb_neq; lia).
  split_and!.
  - done.
  - done.
  - unfold recv_tick, Ticker_recv, tick_ready. simpl. by rewrite Hnr.
  - intros tr fw'' He Hex.
    by apply (no_recv_before _ _ _ Hw' He) in Hex.
  - intros Hla tr fw'' He Hex.
    apply (flush_needs_recv _ _ _ He Hla) in Hex.
    by apply (no_recv_before _ _ _ Hw' He) in Hex.
  - intros Hla. eexists. split_and!.
    + eapply fstep_TickFlush; simpl.
      * unfold alive. simpl. by rewrite Hl.
      * done.
      * by apply startTicker_flush_eq.
    + done.
    + done.
    + done.
  - intros fw1 fw2 Hs2.
    inversion Hs2 as [| | | | | | | | |fw0' w2 _ _ H2| | |]; subst.
    by apply startTicker_flush_Done in H2 as (_ & ->).
  - intros fw1 fw2 Hs2.
    inversion Hs2 as [| | | | | | | |fw0' w2 _ _ H2| | | |]; subst.
    unfold recv_tick in H2. simpl.
    destruct (Ticker_recv (ticker (batcher (base fw1)))); [|done].
    by injection H2 as <-.
Qed.

(** C9, as amended: [Shutdown] sets the flag and leaves the ticker as it
    is, and the loop of [startTicker] has no exit. Once the loop of [Start]
    has returned it stays returned and takes no step, the flag stays set and
    every call of [AddJob] that reads it is rejected; the listener goes on
    flushing, any number of times. The queue is not empty for good: a call
    of [AddJob] that had read the flag before [Shutdown] set it appends its
    entry after the drain, and the next timer flush dispatches it. Only such
    calls append: what is dispatched, queued or about to be appended is
    what was there when the loop returned, and with no such call under way
    the queue stays empty and nothing more is dispatched. *)
Theorem listener_outlives_shutdown fw tr fw' :
  fwf fw -> loop (base fw) = Returned -> fexec fw tr fw' ->
  (forall w w',
     Shutdown w = Done tt w' ->
     shuttingDown (batcher w') = true /\
     ticker (batcher w') = ticker (batcher w)) /\
  loop (base fw') = Returned /\
  existsb is_start_step tr = false /\
  shuttingDown (batcher (base fw')) = true /\
  (forall job r, FEnter job r ∈ tr -> r = None) /\
  (forall bj, bj ∈ appended tr -> bj ∈ adders fw) /\
  (exists out,
     dispatch_log (base fw') = dispatch_log (base fw) ++ out /\
     out ++ jobs (batcher (base fw')) ++ adders fw' ≡ₚ
       jobs (batcher (base fw)) ++ adders fw) /\
  (adders fw = [] -> jobs (batcher (base fw)) = [] ->
   jobs (batcher (base fw')) = [] /\
   dispatch_log (base fw') = dispatch_log (base fw)) /\
  (forall n,
     exists tr2 fw2,
       fexec fw' tr2 fw2 /\ flushes tr2 = n /\ loop (base fw2) = Returned).
Proof.
  intros Hw Hr He.
  destruct (fexec_Returned _ _ _ Hr He) as [Hr' Hst].
  destruct (fexec_after_Shutdown _ _ _ (fwf_returned _ Hw Hr) He)
    as (Hsd & Hen & _ & Hap & _ & out & Hd & Hp & Hn).
  split_and!; try done.
  - by intros w w' [= <-].
  - by exists out.
  - intros Hads Hjs. destruct (Hn Hads) as [_ Hj]. rewrite Hjs in Hj.
    symmetry in Hj. apply app_eq_nil in Hj as [-> ->].
    by rewrite Hd, app_nil_r.
  - intros n.
    destruct (listener_flushes_n n fw') as (tr2 & fw2 & He2 & Hf2 & Hl2).
    { by apply (fexec_fwf fw tr). }
    { unfold alive. by rewrite Hr'. }
    exists tr2, fw2. split_and!; [done|done|]. by rewrite Hl2.
Qed.

(** ** Further properties at the grain of the lock *)

(** X1: [Shutdown] closes the batcher to the calls that come after it. From
    the step of [Shutdown] on, the flag stays set, every call of [AddJob]
    that reads it is rejected and makes no channel, and the entries that are
    appended are those of calls that had read the flag before: what is
    dispatched, queued or about to be appended is what was queued or about
    to be appended at [Shutdown], and with no call under way the queue only
    loses entries, from its head, to the dispatch log. *)
Theorem no_submission_starts_after_Shutdown fw fw1 tr fw2 :
  fstep fw FShutdown fw1 -> fexec fw1 tr fw2 ->
  adders fw1 = adders fw /\
  jobs (batcher (base fw1)) = jobs (batcher (base fw)) /\
  shuttingDown (batcher (base fw2)) = true /\
  (forall job r, FEnter job r ∈ tr -> r = None) /\
  length (chans (base fw2)) = length (chans (base fw)) /\
  (forall bj, bj ∈ appended tr -> bj ∈ adders fw) /\
  exists out,
    dispatch_log (base fw2) = dispatch_log (base fw) ++ out /\
    out ++ jobs (batcher (base fw2)) ++ adders fw2 ≡ₚ
      jobs (batcher (base fw)) ++ adders fw /\
    (adders fw = [] ->
     adders fw2 = [] /\
     jobs (batcher (base fw)) = out ++ jobs (batcher (base fw2))).
Proof.
  intros Hs He.
  inversion Hs as [| |fw0 w' Hal H| | | | | | | | | |]; subst.
  injection H as <-. simpl in *.
  destruct (fexec_after_Shutdown
              (mkFWorld (with_batcher (set_shuttingDown true) (base fw))
                 (start_at fw) (listener_at fw) (adders fw))
              tr fw2 eq_refl He)
    as (Hsd & Hen & Hc & Hap & _ & out & Hd & Hp & Hn).
  split_and!; try done. by exists out.
Qed.

(** X3: one channel for each call that passes the check. In every world
    that the engine of a new batcher reaches, the channels of the entries
    that are dispatched, queued or about to be appended are exactly the
    channels of the store, each once: no two entries share a channel, there
    are as many channels as such entries, and the channels are numbered in
    the order in which the calls of [AddJob] passed the check (a rejected
    call makes none). *)
Theorem channels_are_one_per_job (p : A -> B) f n b tr fw :
  NewBatcher p f n = Some b -> fexec (finit b) tr fw ->
  retCh <$> (dispatch_log (base fw) ++ jobs (batcher (base fw)) ++ adders fw)
    ≡ₚ seq 0 (length (chans (base fw))) /\
  NoDup
    (retCh <$>
       (dispatch_log (base fw) ++ jobs (batcher (base fw)) ++ adders fw)) /\
  length (dispatch_log (base fw) ++ jobs (batcher (base fw)) ++ adders fw) =
    length (chans (base fw)) /\
  retCh <$> concat (map entered_by tr) = seq 0 (length (chans (base fw))).
Proof.
  intros Hnew He.
  assert (Hb : jobs b = []).
  { revert Hnew. unfold NewBatcher. destruct (NewTicker f); [|done].
    by intros [= <-]. }
  assert (Hq :
    retCh <$> (dispatch_log (base fw) ++ jobs (batcher (base fw)) ++ adders fw)
      ≡ₚ seq 0 (length (chans (base fw)))).
  { apply (fexec_channels _ _ _ He). simpl. by rewrite Hb. }
  split_and!.
  - done.
  - rewrite Hq. apply NoDup_seq.
  - apply Permutation_length in Hq.
    by rewrite length_fmap, length_seq in Hq.
  - by rewrite <- (fexec_entered _ _ _ He).
Qed.

(** X14: what the return of [Start] leaves behind. When the shutdown case
    of a new batcher's engine has run, the loop has returned with the flag
    set, the queue is empty and the dispatched entries are the appended ones
    in the order of their appends. Afterwards the dispatch log followed by
    the queue goes on being the appended entries in order, only entries of
    calls that were past the check at the return are appended, and with no
    such call the queue stays empty and nothing more is dispatched. *)
Theorem drain_dispatches_everything_appended (p : A -> B) f n b tr fw fw' :
  NewBatcher p f n = Some b -> fexec (finit b) tr fw ->
  fstep fw FDrain fw' ->
  loop (base fw') = Returned /\
  shuttingDown (batcher (base fw')) = true /\
  jobs (batcher (base fw')) = [] /\
  dispatch_log (base fw') = appended tr /\
  adders fw' = adders fw /\
  (forall tr2 fw2,
     fexec fw' tr2 fw2 ->
     dispatch_log (base fw2) ++ jobs (batcher (base fw2)) =
       appended tr ++ appended tr2 /\
     (forall bj, bj ∈ appended tr2 -> bj ∈ adders fw) /\
     (adders fw = [] ->
      jobs (batcher (base fw2)) = [] /\ dispatch_log (base fw2) = appended tr)).
Proof.
  intros Hnew He Hs.
  assert (Hb : jobs b = []).
  { revert Hnew. unfold NewBatcher. destruct (NewTicker f); [|done].
    by intros [= <-]. }
  pose proof (fexec_fwf _ _ _ (fwf_finit _ _ _ _ Hnew) He) as Hw.
  pose proof (fstep_fwf _ _ _ Hw Hs) as Hw'.
  pose proof (fexec_queue _ _ _ He) as Hq. simpl in Hq. rewrite Hb in Hq.
  simpl in Hq.
  inversion Hs as [| | | | |fw0 w' Hl Hpc H| | | | | | |]; subst.
  apply Start_case_shutdown_Done in H as (_ & _ & ->). simpl in *.
  pose proof (fwf_returned _ Hw' eq_refl) as Hsd. simpl in Hsd.
  split_and!; try done.
  intros tr2 fw2 He2.
  pose proof (fexec_queue _ _ _ He2) as Hq2. simpl in Hq2.
  rewrite Hq in Hq2.
  pose proof (fun H => fexec_after_Shutdown _ _ _ H He2) as Haft.
  simpl in Haft.
  destruct (Haft Hsd) as (_ & _ & _ & Hap & _ & out & Hd & _ & Hn).
  split_and!; [done|done|].
  intros Hads. destruct (Hn Hads) as [_ Hj].
  symmetry in Hj. apply app_eq_nil in Hj as [-> Hj2].
  split; [done|]. by rewrite Hd, Hq, app_nil_r.
Qed.

End Lock_grain.

(** ** Instances at the grain of the lock *)

Ltac fine_step :=
  lazymatch goal with
  | |- fstep ?fw (FEnter _ _) _ => eapply (fstep_Enter fw); lazy; reflexivity
  | |- fstep ?fw (FAppend _ _) _ =>
      eapply (fstep_Append fw []); lazy; reflexivity
  | |- fstep ?fw FShutdown _ => eapply (fstep_Shutdown fw); lazy; reflexivity
  | |- fstep ?fw (FCase1 _) _ => exact (fstep_Case1 fw eq_refl eq_refl)
  | |- fstep ?fw (FCase2 ?t) _ =>
      exact (fstep_Case2 fw t eq_refl eq_refl eq_refl)
  | |- fstep ?fw FDrain _ => eapply (fstep_Drain fw); lazy; reflexivity
  | |- fstep ?fw FSize _ => eapply (fstep_Size fw); lazy; reflexivity
  | |- fstep ?fw FTickRecv _ => eapply (fstep_TickRecv fw); lazy; reflexivity
  | |- fstep ?fw FTickFlush _ =>
      eapply (fstep_TickFlush fw); lazy; reflexivity
  | |- fstep ?fw (FElapse _) _ =>
      apply (fstep_Elapse fw);
        [reflexivity | vm_compute; split; [reflexivity | discriminate]]
  end.

Ltac fine_world :=
  lazymatch goal with
  | |- fexec ?fw ?tr ?fw' =>
      let fw1 := eval lazy in fw in change (fexec fw1 tr fw')
  end.

Ltac fine_exec :=
  repeat (first [ apply fexec_nil
                | eapply fexec_cons; [fine_step | fine_world] ]).

(** C1 on the batcher of [TestBatcherBatchSize] with the frequency of
    [TestBatcherTimer]. *)
Lemma Start_panics_after_racing_timer_flush_witness :
  NewBatcher uppercaseString ONE_MILLISECOND 1 =
    Some (test_batcher ONE_MILLISECOND 1) /\
  exists fw : FWorld (A:=string) (B:=string),
    fexec (finit (test_batcher ONE_MILLISECOND 1))
      [FEnter job1 (Some 0%nat);
       FAppend (mkBatchJob job1 0) (Some (future 1 0), None);
       FCase1 false; FCase2 true;
       FElapse ONE_MILLISECOND; FTickRecv; FTickFlush;
       FSizePanic "slice bounds out of range"%string] fw /\
    loop (base fw) = Panicked "slice bounds out of range"%string /\
    Get (future 1 0) (base fw) = Blocked.
Proof.
  split; [reflexivity|].
  destruct (Start_panics_after_racing_timer_flush uppercaseString
              ONE_MILLISECOND job1 (test_batcher ONE_MILLISECOND 1) eq_refl)
    as (fw & He & _ & Hl & _ & _ & _ & Hg & _).
  exists fw. split; [exact He|]. split; [exact Hl|exact Hg].
Defined.

(** Against C5 as claimed: the listener has received its tick when two jobs
    are submitted; the size flush dispatches the first and resets the
    ticker, and the timer flush follows it at once and dispatches the
    second. *)
Lemma timer_flush_right_after_size_flush :
  exists fw1 fw2 fw3 : FWorld (A:=string) (B:=string),
    fexec (finit (test_batcher ONE_MILLISECOND 1))
      [FElapse ONE_MILLISECOND; FTickRecv;
       FEnter job1 (Some 0%nat);
       FAppend (mkBatchJob job1 0) (Some (future 1 0), None);
       FEnter job2 (Some 1%nat);
       FAppend (mkBatchJob job2 1) (Some (future 2 1), None);
       FCase1 false; FCase2 true] fw1 /\
    fstep fw1 FSize fw2 /\
    ticker (batcher (base fw2)) = mkTicker ONE_MILLISECOND ONE_MILLISECOND /\
    dispatch_log (base fw2) = [mkBatchJob job1 0] /\
    jobs (batcher (base fw2)) = [mkBatchJob job2 1] /\
    fstep fw2 FTickFlush fw3 /\
    felapsed [FTickFlush (A:=string) (B:=string)] = 0 /\
    dispatch_log (base fw3) = [mkBatchJob job1 0; mkBatchJob job2 1] /\
    jobs (batcher (base fw3)) = [].
Proof.
  do 3 eexists. split; [fine_exec|].
  split; [fine_step|]. split; [reflexivity|]. split; [reflexivity|].
  split; [reflexivity|]. split; [fine_step|]. repeat split.
Qed.

(** The world before the size flush of [TestBatcherBatchSize]. *)
Lemma fwf_size_2 : fwf (mkFWorld size_2 InCaseSize AwaitsTick []).
Proof.
  constructor; try reflexivity; try discriminate.
  vm_compute. split; discriminate.
Defined.

Lemma size_flush_resets_ticker_witness :
  fwf (mkFWorld size_2 InCaseSize AwaitsTick []) /\
  fstep (mkFWorld size_2 InCaseSize AwaitsTick []) FSize
    (mkFWorld size_3 AtCase1 AwaitsTick []) /\
  ticker (batcher size_3) = mkTicker FIVE_MINUTES FIVE_MINUTES /\
  recv_tick size_3 = Blocked.
Proof.
  assert (Hs : fstep (mkFWorld size_2 InCaseSize AwaitsTick []) FSize
                 (mkFWorld size_3 AtCase1 AwaitsTick []))
    by (apply (fstep_Size (mkFWorld size_2 InCaseSize AwaitsTick []));
        lazy; reflexivity).
  split; [exact fwf_size_2|]. split; [exact Hs|].
  destruct (size_flush_resets_ticker _ _ fwf_size_2 Hs) as (H1 & _ & H2 & _).
  split; [exact H1|exact H2].
Defined.

(** Against C9 as claimed: a call of [AddJob] reads the flag, [Shutdown]
    sets it, the loop of [Start] drains the empty queue and returns; the
    call then appends its entry, and the next timer flush dispatches it. *)
Lemma queue_refilled_after_drain :
  exists fw1 fw2 fw3 : FWorld (A:=string) (B:=string),
    fexec (finit (test_batcher ONE_MILLISECOND 2))
      [FEnter job1 (Some 0%nat); FShutdown; FCase1 true; FDrain] fw1 /\
    loop (base fw1) = Returned /\
    jobs (batcher (base fw1)) = [] /\
    dispatch_log (base fw1) = [] /\
    fexec fw1 [FAppend (mkBatchJob job1 0) (Some (future 1 0), None)] fw2 /\
    jobs (batcher (base fw2)) = [mkBatchJob job1 0] /\
    fexec fw2 [FElapse ONE_MILLISECOND; FTickRecv; FTickFlush] fw3 /\
    dispatch_log (base fw3) = [mkBatchJob job1 0] /\
    goroutines (base fw3) = [mkBatchJob job1 0].
Proof.
  do 3 eexists. split; [fine_exec|]. do 3 (split; [reflexivity|]).
  split; [fine_exec|]. split; [reflexivity|].
  split; [fine_exec|]. split; reflexivity.
Qed.

(** The engine of [TestBatcherShutdown] after the return of [Start]. *)
Lemma fwf_drain_7 : fwf (at_rest drain_7).
Proof.
  constructor; try reflexivity; try discriminate.
  vm_compute. split; discriminate.
Defined.

Lemma fexec_drain_7_flush :
  exists fw : FWorld (A:=string) (B:=string),
    fexec (at_rest drain_7) [FElapse FIVE_MINUTES; FTickRecv; FTickFlush] fw.
Proof. eexists. fine_exec. Defined.

Lemma listener_outlives_shutdown_witness :
  fwf (at_rest drain_7) /\
  loop drain_7 = Returned /\
  exists fw : FWorld (A:=string) (B:=string),
    fexec (at_rest drain_7) [FElapse FIVE_MINUTES; FTickRecv; FTickFlush] fw /\
    loop (base fw) = Returned /\
    jobs (batcher (base fw)) = [] /\
    dispatch_log (base fw) = dispatch_log drain_7.
Proof.
  split; [exact fwf_drain_7|]. split; [reflexivity|].
  destruct fexec_drain_7_flush as (fw & He). exists fw.
  destruct (listener_outlives_shutdown _ _ _ fwf_drain_7 eq_refl He)
    as (_ & Hl & _ & _ & _ & _ & _ & Hq & _).
  destruct (Hq eq_refl eq_refl) as [Hj Hd].
  split; [exact He|]. split; [exact Hl|]. split; [exact Hj|exact Hd].
Defined.

(** A submission that is past the check when [Shutdown] is called. *)
Lemma fexec_entered_then_Shutdown :
  exists fw fw1 fw2 : FWorld (A:=string) (B:=string),
    fexec (finit (test_batcher ONE_MILLISECOND 2))
      [FEnter job1 (Some 0%nat)] fw /\
    fstep fw FShutdown fw1 /\
    fexec fw1
      [FEnter job2 None; FCase1 true; FDrain;
       FAppend (mkBatchJob job1 0) (Some (future 1 0), None)] fw2.
Proof.
  do 3 eexists. split; [fine_exec|]. split; [fine_step|]. fine_exec.
Defined.

Lemma no_submission_starts_after_Shutdown_witness :
  exists fw fw1 fw2 : FWorld (A:=string) (B:=string),
    fstep fw FShutdown fw1 /\
    fexec fw1
      [FEnter job2 None; FCase1 true; FDrain;
       FAppend (mkBatchJob job1 0) (Some (future 1 0), None)] fw2 /\
    shuttingDown (batcher (base fw2)) = true /\
    length (chans (base fw2)) = length (chans (base fw)).
Proof.
  destruct fexec_entered_then_Shutdown as (fw & fw1 & fw2 & _ & Hs & He).
  exists fw, fw1, fw2.
  destruct (no_submission_starts_after_Shutdown _ _ _ _ Hs He)
    as (_ & _ & Hsd & _ & Hc & _).
  split; [exact Hs|]. split; [exact He|]. split; [exact Hsd|exact Hc].
Defined.

(** Two submissions that pass the check in one order and append in the
    other. *)
Lemma fexec_crossed_appends :
  exists fw : FWorld (A:=string) (B:=string),
    fexec (finit (test_batcher FIVE_MINUTES 2))
      [FEnter job1 (Some 0%nat); FEnter job2 (Some 1%nat);
       FAppend (mkBatchJob job2 1) (Some (future 2 1), None)] fw.
Proof.
  eexists. eapply fexec_cons; [fine_step|fine_world].
  eapply fexec_cons; [fine_step|fine_world].
  eapply fexec_cons; [|apply fexec_nil].
  eapply (fstep_Append _ [mkBatchJob job1 0]); lazy; reflexivity.
Defined.

Lemma channels_are_one_per_job_witness :
  NewBatcher uppercaseString FIVE_MINUTES 2 =
    Some (test_batcher FIVE_MINUTES 2) /\
  exists fw : FWorld (A:=string) (B:=string),
    fexec (finit (test_batcher FIVE_MINUTES 2))
      [FEnter job1 (Some 0%nat); FEnter job2 (Some 1%nat);
       FAppend (mkBatchJob job2 1) (Some (future 2 1), None)] fw /\
    NoDup
      (retCh <$>
         (dispatch_log (base fw) ++ jobs (batcher (base fw)) ++ adders fw)).
Proof.
  split; [reflexivity|].
  destruct fexec_crossed_appends as (fw & He). exists fw.
  destruct (channels_are_one_per_job uppercaseString FIVE_MINUTES 2
              (test_batcher FIVE_MINUTES 2) _ fw eq_refl He) as (_ & Hn & _).
  split; [exact He|exact Hn].
Defined.

(** The drain of [TestBatcherShutdown], step by step. *)
Lemma fexec_shutdown_drain :
  exists fw fw' : FWorld (A:=string) (B:=string),
    fexec (finit (test_batcher FIVE_MINUTES 2))
      [FEnter job1 (Some 0%nat);
       FAppend (mkBatchJob job1 0) (Some (future 1 0), None);
       FShutdown; FCase1 true] fw /\
    fstep fw FDrain fw'.
Proof. do 2 eexists. split; [fine_exec|fine_step]. Defined.

Lemma drain_dispatches_everything_appended_witness :
  NewBatcher uppercaseString FIVE_MINUTES 2 =
    Some (test_batcher FIVE_MINUTES 2) /\
  exists fw fw' : FWorld (A:=string) (B:=string),
    fexec (finit (test_batcher FIVE_MINUTES 2))
      [FEnter job1 (Some 0%nat);
       FAppend (mkBatchJob job1 0) (Some (future 1 0), None);
       FShutdown; FCase1 true] fw /\
    fstep fw FDrain fw' /\
    jobs (batcher (base fw')) = [] /\
    dispatch_log (base fw') = [mkBatchJob job1 0].
Proof.
  split; [reflexivity|].
  destruct fexec_shutdown_drain as (fw & fw' & He & Hs). exists fw, fw'.
  destruct (drain_dispatches_everything_appended uppercaseString FIVE_MINUTES 2
              (test_batcher FIVE_MINUTES 2) _ fw fw' eq_refl He Hs)
    as (_ & _ & Hj & Hd & _).
  split; [exact He|]. split; [exact Hs|]. split; [exact Hj|exact Hd].
Defined.
